(** * CircularBuff: a fixed-capacity ring buffer with overwrite-on-full

    Shallow embedding of [circularBuffer/C++/cBuff.hpp].

    - [size_t] values are integers in [Z] taken modulo [SIZE_MODULUS]
      (64-bit unsigned); every unsigned [+] and [-] of the source is
      wrapped explicitly with [wrap].
    - The backing store [m_buf] (a [std::unique_ptr<T[]>]) is a list
      indexed by position; an access outside of it, and a [%] whose
      divisor is zero, are undefined behaviour and reported as
      [Undefined].
    - Member functions that mutate the object are computations in a small
      state-and-error monad [M] over the object's fields.  The mutex only
      serialises whole member functions, so each of them is modelled as
      one atomic step of the sequential semantics. *)

From Stdlib Require Import ZArith Lia Bool.

From stdpp Require Import base option list.

Local Open Scope Z_scope.

(** ** Machine integers *)

Definition SIZE_MODULUS : Z := 2 ^ 64.

Definition wrap (z : Z) : Z := z mod SIZE_MODULUS.

Definition CIRCULAR_BUFF_DEFAULT_SIZE : Z := 4 * 1024.

(** ** Outcomes of a member function *)

Inductive ub : Set :=
| OutOfBounds
| DivisionByZero.

Inductive outcome (A : Type) : Type :=
| Ok (a : A)
| Undefined (u : ub).

Arguments Ok {A} a.

Arguments Undefined {A} u.

Definition is_ok {A : Type} (o : outcome A) : bool :=
  match o with
  | Ok _ => true
  | Undefined _ => false
  end.

(** Raw arrays handed around by pointer: [a[i]] and [a[i] = v]. *)

Definition in_range {T : Type} (a : list T) (i : Z) : bool :=
  (0 <=? i) && (i <? Z.of_nat (length a)).

Definition arr_load {T : Type} (a : list T) (i : Z) : outcome T :=
  if in_range a i then
    match a !! Z.to_nat i with
    | Some v => Ok v
    | None => Undefined OutOfBounds
    end
  else Undefined OutOfBounds.

Definition arr_store {T : Type} (a : list T) (i : Z) (v : T) : outcome (list T) :=
  if in_range a i then Ok (<[Z.to_nat i := v]> a) else Undefined OutOfBounds.

(** Unsigned [%]. *)

Definition umod (a b : Z) : outcome Z :=
  if b =? 0 then Undefined DivisionByZero else Ok (a mod b).

Section CircularBuff.

Context {T : Type}.

(** [T()], the value-initialised element. *)
Variable T_default : T.

(** What slot [i] of a freshly allocated [new T[size]] holds (the
    elements are default-initialised, so for a scalar [T] this is
    whatever the allocator left there). *)
Variable fresh : nat -> T.

Record CircularBuff : Type := mkCircularBuff {
  m_buf : list T;
  m_head : Z;
  m_tail : Z;
  m_maxSize : Z;
  m_full : bool
}.

(** *** The monad of member functions *)

Definition M (A : Type) : Type := CircularBuff -> outcome (A * CircularBuff).

Definition ret {A : Type} (a : A) : M A := fun b => Ok (a, b).

Definition bind {A B : Type} (m : M A) (k : A -> M B) : M B :=
  fun b =>
    match m b with
    | Ok (a, b') => k a b'
    | Undefined u => Undefined u
    end.

Definition lift {A : Type} (o : outcome A) : M A :=
  fun b =>
    match o with
    | Ok a => Ok (a, b)
    | Undefined u => Undefined u
    end.

Definition load {A : Type} (f : CircularBuff -> A) : M A :=
  fun b => Ok (f b, b).

Definition set_buf (l : list T) : M unit :=
  fun b => Ok (tt, mkCircularBuff l (m_head b) (m_tail b) (m_maxSize b) (m_full b)).

Definition set_head (h : Z) : M unit :=
  fun b => Ok (tt, mkCircularBuff (m_buf b) h (m_tail b) (m_maxSize b) (m_full b)).

Definition set_tail (t : Z) : M unit :=
  fun b => Ok (tt, mkCircularBuff (m_buf b) (m_head b) t (m_maxSize b) (m_full b)).

Definition set_full (f : bool) : M unit :=
  fun b => Ok (tt, mkCircularBuff (m_buf b) (m_head b) (m_tail b) (m_maxSize b) f).

Notation "x <- c1 ;; c2" := (bind c1 (fun x => c2))
  (at level 100, c1 at next level, right associativity).

Notation "c1 ;; c2" := (bind c1 (fun _ => c2))
  (at level 100, right associativity).

(** *** Constructors *)

(** [CircularBuff(size_t size)]: [m_buf(new T[size])], [m_maxSize(size)],
    the other members from their default initialisers.  No check is made
    on [size]; [new T[0]] is a valid zero-length array.  Exhaustion of
    memory is not modelled. *)
Definition CircularBuff_ctor (size : Z) : outcome CircularBuff :=
  Ok (mkCircularBuff (map fresh (seq 0 (Z.to_nat size))) 0 0 size false).

Definition CircularBuff_default_ctor : outcome CircularBuff :=
  CircularBuff_ctor CIRCULAR_BUFF_DEFAULT_SIZE.

(** *** Queries ([const] member functions) *)

Definition empty (b : CircularBuff) : bool :=
  if negb (eqb true (m_full b)) && (m_head b =? m_tail b) then true else false.

Definition full (b : CircularBuff) : bool := m_full b.

Definition capacity (b : CircularBuff) : Z := m_maxSize b.

Definition size (b : CircularBuff) : Z :=
  let size := m_maxSize b in
  if negb (eqb true (m_full b)) then
    if m_head b >=? m_tail b then wrap (m_head b - m_tail b)
    else wrap (wrap (m_maxSize b + m_head b) - m_tail b)
  else size.

(** *** Mutators *)

Definition reset : M unit :=
  t <- load m_tail ;;
  set_head t ;;
  set_full false.

Definition put (item : T) : M unit :=
  h <- load m_head ;;
  l <- load m_buf ;;
  l' <- lift (arr_store l h item) ;;
  set_buf l' ;;
  f <- load m_full ;;
  (if f then
     t <- load m_tail ;;
     n <- load m_maxSize ;;
     t' <- lift (umod (wrap (t + 1)) n) ;;
     set_tail t'
   else ret tt) ;;
  h <- load m_head ;;
  n <- load m_maxSize ;;
  h' <- lift (umod (wrap (h + 1)) n) ;;
  set_head h' ;;
  h <- load m_head ;;
  t <- load m_tail ;;
  set_full (h =? t).

Definition get : M T :=
  e <- load empty ;;
  if eqb true e then ret T_default
  else
    t <- load m_tail ;;
    l <- load m_buf ;;
    val <- lift (arr_load l t) ;;
    set_full false ;;
    t <- load m_tail ;;
    n <- load m_maxSize ;;
    t' <- lift (umod (wrap (t + 1)) n) ;;
    set_tail t' ;;
    ret val.

(** [for (size_t i = 0; i < size; ++i) put(buff[i]);] with [n] the
    number of iterations still to run. *)
Fixpoint write_loop (buff : list T) (n : nat) (i : Z) : M unit :=
  match n with
  | O => ret tt
  | S n' =>
      x <- lift (arr_load buff i) ;;
      put x ;;
      write_loop buff n' (wrap (i + 1))
  end.

Definition write (buff : list T) (size : Z) : M unit :=
  write_loop buff (Z.to_nat size) 0.

(** [for (i = 0; i < size; ++i) { if (empty()) break; buff[i] = get(); }
    return i;] -- the caller's array is threaded through and returned
    next to the count. *)
Fixpoint read_loop (n : nat) (i : Z) (buff : list T) : M (Z * list T) :=
  match n with
  | O => ret (i, buff)
  | S n' =>
      e <- load empty ;;
      if eqb true e then ret (i, buff)
      else
        v <- get ;;
        buff' <- lift (arr_store buff i v) ;;
        read_loop n' (wrap (i + 1)) buff'
  end.

Definition read (buff : list T) (size : Z) : M (Z * list T) :=
  read_loop (Z.to_nat size) 0 buff.

(** * Specification-side definitions *)

(** ** The representation invariant *)

Record Inv (b : CircularBuff) : Prop := mkInv {
  inv_cap : 0 < m_maxSize b < SIZE_MODULUS;
  inv_buf : Z.of_nat (length (m_buf b)) = m_maxSize b;
  inv_head : 0 <= m_head b < m_maxSize b;
  inv_tail : 0 <= m_tail b < m_maxSize b;
  inv_full : m_full b = true -> m_head b = m_tail b
}.

(** The slot after [i], cyclically. *)
Definition next (b : CircularBuff) (i : Z) : Z := (i + 1) mod m_maxSize b.

Definition after_put (item : T) (b : CircularBuff) : CircularBuff :=
  let t' := if m_full b then next b (m_tail b) else m_tail b in
  let h' := next b (m_head b) in
  mkCircularBuff (<[Z.to_nat (m_head b) := item]> (m_buf b)) h' t' (m_maxSize b) (h' =? t').

Definition after_get (b : CircularBuff) : CircularBuff :=
  mkCircularBuff (m_buf b) (m_head b) (next b (m_tail b)) (m_maxSize b) false.

Definition after_reset (b : CircularBuff) : CircularBuff :=
  mkCircularBuff (m_buf b) (m_tail b) (m_tail b) (m_maxSize b) false.

(** ** The queue a buffer stands for

    [contents b] lists the unread elements, oldest first: [size b] slots
    starting at [m_tail b] and going round the backing store. *)

Definition slot (b : CircularBuff) (k : Z) : T :=
  default T_default (m_buf b !! Z.to_nat ((m_tail b + k) mod m_maxSize b)).

Definition contents (b : CircularBuff) : list T :=
  slot b <$> seqZ 0 (size b).

(** ** Sequences of calls *)

(** [k] successive calls of [get], with the values they return. *)
Fixpoint gets (k : nat) : M (list T) :=
  match k with
  | O => ret []
  | S k' =>
      v <- get ;;
      vs <- gets k' ;;
      ret (v :: vs)
  end.

(** Successive calls of [put], one per item. *)
Fixpoint puts (items : list T) : M unit :=
  match items with
  | [] => ret tt
  | x :: items' => put x ;; puts items'
  end.

Fixpoint after_gets (k : nat) (b : CircularBuff) : CircularBuff :=
  match k with
  | O => b
  | S k' => after_gets k' (after_get b)
  end.

Definition after_puts (items : list T) (b : CircularBuff) : CircularBuff :=
  foldl (fun b' x => after_put x b') b items.

(** ** Reachable states

    The states an object can be in: built by the constructor from any
    [size_t] and then driven through the public member functions, each
    call having returned normally. *)

Inductive reachable : CircularBuff -> Prop :=
| reach_ctor (n : Z) (b : CircularBuff) :
    0 <= n < SIZE_MODULUS -> CircularBuff_ctor n = Ok b -> reachable b
| reach_put (b b' : CircularBuff) (item : T) :
    reachable b -> put item b = Ok (tt, b') -> reachable b'
| reach_get (b b' : CircularBuff) (v : T) :
    reachable b -> get b = Ok (v, b') -> reachable b'
| reach_reset (b b' : CircularBuff) :
    reachable b -> reset b = Ok (tt, b') -> reachable b'
| reach_write (b b' : CircularBuff) (buff : list T) (n : Z) :
    reachable b -> write buff n b = Ok (tt, b') -> reachable b'
| reach_read (b b' : CircularBuff) (buff : list T) (n : Z) (r : Z * list T) :
    reachable b -> read buff n b = Ok (r, b') -> reachable b'.

(** What [CircularBuff(0)] builds. *)
Definition zero_capacity (b : CircularBuff) : Prop :=
  m_buf b = [] /\ m_head b = 0 /\ m_tail b = 0 /\ m_maxSize b = 0 /\ m_full b = false.

(** * Properties *)

(** ** Machine arithmetic *)

Lemma SIZE_MODULUS_pos : 0 < SIZE_MODULUS.
Proof. reflexivity. Qed.

Lemma wrap_small (z : Z) : 0 <= z < SIZE_MODULUS -> wrap z = z.
Proof. intros H. unfold wrap. now apply Z.mod_small. Qed.

Lemma wrap_range (z : Z) : 0 <= wrap z < SIZE_MODULUS.
Proof. unfold wrap. apply Z.mod_pos_bound, SIZE_MODULUS_pos. Qed.

(** A sum that overflowed once is put back by one further subtraction. *)
Lemma wrap_add_sub (n h t : Z) :
  0 <= n < SIZE_MODULUS -> 0 <= h -> h < t -> t < n ->
  wrap (wrap (n + h) - t) = n + h - t.
Proof.
  intros Hn Hh Hht Htn. unfold wrap.
  rewrite Zminus_mod_idemp_l. apply Z.mod_small. lia.
Qed.

Lemma succ_mod (i n : Z) :
  0 <= i < n -> (i + 1) mod n = if i + 1 =? n then 0 else i + 1.
Proof.
  intros H. destruct (Z.eqb_spec (i + 1) n) as [E | E].
  - rewrite E. apply Z_mod_same_full.
  - apply Z.mod_small. lia.
Qed.

Lemma add_mod_cases (i k n : Z) :
  0 <= i < n -> 0 <= k < n ->
  (i + k) mod n = if i + k <? n then i + k else i + k - n.
Proof.
  intros Hi Hk. destruct (Z.ltb_spec (i + k) n) as [L | L].
  - apply Z.mod_small. lia.
  - replace (i + k) with ((i + k - n) + 1 * n) by lia.
    rewrite Z_mod_plus_full. replace (i + k - n + 1 * n - n) with (i + k - n) by lia.
    apply Z.mod_small. lia.
Qed.

Lemma sub_mod_cases (h t n : Z) :
  0 <= h < n -> 0 <= t < n ->
  (h - t) mod n = if t <=? h then h - t else n + h - t.
Proof.
  intros Hh Ht. destruct (Z.leb_spec t h) as [L | L].
  - apply Z.mod_small. lia.
  - replace (h - t) with ((n + h - t) + (-1) * n) by lia.
    rewrite Z_mod_plus_full. apply Z.mod_small. lia.
Qed.

(** ** The member functions in closed form *)

Lemma empty_iff (b : CircularBuff) :
  empty b = true <-> m_full b = false /\ m_head b = m_tail b.
Proof.
  unfold empty. destruct (m_full b); simpl.
  - intuition discriminate.
  - destruct (Z.eqb_spec (m_head b) (m_tail b)); intuition discriminate.
Qed.

Lemma empty_false_iff (b : CircularBuff) :
  empty b = false <-> m_full b = true \/ m_head b <> m_tail b.
Proof.
  unfold empty. destruct (m_full b); simpl.
  - intuition discriminate.
  - destruct (Z.eqb_spec (m_head b) (m_tail b)); intuition discriminate.
Qed.

Lemma reset_eq (b : CircularBuff) : reset b = Ok (tt, after_reset b).
Proof. reflexivity. Qed.

Lemma put_eq (item : T) (b : CircularBuff) :
  Inv b -> put item b = Ok (tt, after_put item b).
Proof.
  intros [Hc Hb Hh Ht Hf].
  unfold put, bind, load, lift, set_buf, set_head, set_tail, set_full, ret,
    arr_store, in_range, umod, after_put, next; simpl.
  assert (E1 : (0 <=? m_head b) && (m_head b <? Z.of_nat (length (m_buf b))) = true).
  { apply andb_true_iff. split; [apply Z.leb_le | apply Z.ltb_lt]; lia. }
  rewrite E1; simpl.
  assert (E2 : (m_maxSize b =? 0) = false) by (apply Z.eqb_neq; lia).
  destruct (m_full b); simpl;
    repeat (rewrite ?E2, ?(wrap_small (m_tail b + 1)), ?(wrap_small (m_head b + 1)) by lia;
            simpl);
    reflexivity.
Qed.

Lemma get_empty_eq (b : CircularBuff) :
  empty b = true -> get b = Ok (T_default, b).
Proof.
  intros E. unfold get, bind, load, ret. rewrite E. reflexivity.
Qed.

Lemma get_eq (b : CircularBuff) :
  Inv b -> empty b = false ->
  exists v, m_buf b !! Z.to_nat (m_tail b) = Some v /\ get b = Ok (v, after_get b).
Proof.
  intros [Hc Hb Hh Ht Hf] E.
  assert (Hlt : (Z.to_nat (m_tail b) < length (m_buf b))%nat) by lia.
  destruct (lookup_lt_is_Some_2 _ _ Hlt) as [v Hv].
  exists v. split; [exact Hv |].
  unfold get, bind, load, lift, set_full, set_tail, ret,
    arr_load, in_range, umod, after_get, next; simpl.
  rewrite E; simpl.
  assert (E1 : (0 <=? m_tail b) && (m_tail b <? Z.of_nat (length (m_buf b))) = true).
  { apply andb_true_iff. split; [apply Z.leb_le | apply Z.ltb_lt]; lia. }
  rewrite E1, Hv; simpl.
  assert (E2 : (m_maxSize b =? 0) = false) by (apply Z.eqb_neq; lia).
  rewrite E2; simpl. rewrite (wrap_small (m_tail b + 1)) by lia. reflexivity.
Qed.

(** *** The invariant is established by the constructor and kept by
    every step *)

Lemma next_range (b : CircularBuff) (i : Z) :
  0 < m_maxSize b -> 0 <= next b i < m_maxSize b.
Proof. intros H. unfold next. now apply Z.mod_pos_bound. Qed.

Lemma Inv_ctor (n : Z) :
  0 < n < SIZE_MODULUS ->
  exists b, CircularBuff_ctor n = Ok b /\ Inv b /\ m_maxSize b = n /\
            m_head b = 0 /\ m_tail b = 0 /\ m_full b = false.
Proof.
  intros Hn. eexists. split; [reflexivity |].
  repeat split; simpl; try lia; try discriminate.
  rewrite length_map, length_seq. lia.
Qed.

Lemma Inv_after_put (item : T) (b : CircularBuff) : Inv b -> Inv (after_put item b).
Proof.
  intros [Hc Hb Hh Ht Hf]. unfold after_put.
  split; simpl; try assumption.
  - now rewrite length_insert.
  - apply next_range; lia.
  - destruct (m_full b); [apply next_range; lia | assumption].
  - intros E. now apply Z.eqb_eq in E.
Qed.

Lemma Inv_after_get (b : CircularBuff) : Inv b -> Inv (after_get b).
Proof.
  intros [Hc Hb Hh Ht Hf]. unfold after_get.
  split; simpl; try assumption.
  - apply next_range; lia.
  - discriminate.
Qed.

Lemma Inv_after_reset (b : CircularBuff) : Inv b -> Inv (after_reset b).
Proof.
  intros [Hc Hb Hh Ht Hf]. unfold after_reset.
  split; simpl; try assumption. discriminate.
Qed.

(** *** [size] under the invariant *)

Lemma size_eq (b : CircularBuff) :
  Inv b ->
  size b = if m_full b then m_maxSize b
           else (m_head b - m_tail b) mod m_maxSize b.
Proof.
  intros [Hc Hb Hh Ht Hf]. unfold size.
  destruct (m_full b); simpl; [reflexivity |].
  rewrite Z.geb_leb, sub_mod_cases by assumption.
  destruct (Z.leb_spec (m_tail b) (m_head b)).
  - apply wrap_small. lia.
  - apply wrap_add_sub; lia.
Qed.

Lemma size_cases (b : CircularBuff) :
  Inv b ->
  size b = if m_full b then m_maxSize b
           else if m_tail b <=? m_head b then m_head b - m_tail b
                else m_maxSize b + m_head b - m_tail b.
Proof.
  intros I. rewrite (size_eq b I). destruct (m_full b); [reflexivity |].
  destruct I. now apply sub_mod_cases.
Qed.

Lemma size_range (b : CircularBuff) : Inv b -> 0 <= size b <= m_maxSize b.
Proof.
  intros I. rewrite (size_cases b I). destruct I as [Hc Hb Hh Ht Hf].
  destruct (m_full b); [lia |].
  destruct (Z.leb_spec (m_tail b) (m_head b)); lia.
Qed.

Lemma size_0_empty (b : CircularBuff) : Inv b -> (size b = 0 <-> empty b = true).
Proof.
  intros I. rewrite (size_cases b I), empty_iff. destruct I as [Hc Hb Hh Ht Hf].
  destruct (m_full b).
  - split; [lia | intros [? _]; discriminate].
  - destruct (Z.leb_spec (m_tail b) (m_head b)); split; try lia; intuition lia.
Qed.

Lemma size_after_get (b : CircularBuff) :
  Inv b -> empty b = false -> size (after_get b) = size b - 1.
Proof.
  intros I E. rewrite (size_cases _ (Inv_after_get b I)), (size_cases b I).
  apply empty_false_iff in E. destruct I as [Hc Hb Hh Ht Hf].
  unfold after_get, next; simpl. rewrite succ_mod by assumption.
  destruct (m_full b).
  - rewrite Hf by reflexivity.
    destruct (Z.eqb_spec (m_tail b + 1) (m_maxSize b));
      destruct (Z.leb_spec 0 (m_tail b));
      destruct (Z.leb_spec (m_tail b + 1) (m_tail b)); lia.
  - destruct E as [E | E]; [discriminate |].
    destruct (Z.eqb_spec (m_tail b + 1) (m_maxSize b));
      destruct (Z.leb_spec 0 (m_head b));
      destruct (Z.leb_spec (m_tail b + 1) (m_head b));
      destruct (Z.leb_spec (m_tail b) (m_head b)); lia.
Qed.

Lemma size_after_put (item : T) (b : CircularBuff) :
  Inv b ->
  size (after_put item b) = if m_full b then m_maxSize b else size b + 1.
Proof.
  intros I. rewrite (size_cases _ (Inv_after_put item b I)).
  destruct (m_full b) eqn:F.
  - destruct I as [Hc Hb Hh Ht Hf]. unfold after_put; simpl. rewrite F.
    rewrite (Hf F). now rewrite Z.eqb_refl.
  - rewrite (size_cases b I), F. destruct I as [Hc Hb Hh Ht Hf].
    unfold after_put, next; simpl. rewrite F. rewrite succ_mod by assumption.
    destruct (Z.eqb_spec (m_head b + 1) (m_maxSize b));
      [destruct (Z.eqb_spec 0 (m_tail b)); destruct (Z.leb_spec (m_tail b) 0)
      |destruct (Z.eqb_spec (m_head b + 1) (m_tail b));
       destruct (Z.leb_spec (m_tail b) (m_head b + 1))];
      destruct (Z.leb_spec (m_tail b) (m_head b)); lia.
Qed.

Lemma full_after_put (item : T) (b : CircularBuff) :
  Inv b -> m_full (after_put item b) = (size b + 1 >=? m_maxSize b).
Proof.
  intros I. pose proof (size_range b I) as R. rewrite (size_cases b I) in *.
  destruct I as [Hc Hb Hh Ht Hf]. unfold after_put, next; simpl.
  destruct (m_full b).
  - rewrite Hf by reflexivity. rewrite Z.eqb_refl. symmetry. apply Z.geb_le. lia.
  - rewrite succ_mod by assumption.
    destruct (Z.eqb_spec (m_head b + 1) (m_maxSize b));
      [destruct (Z.eqb_spec 0 (m_tail b))
      |destruct (Z.eqb_spec (m_head b + 1) (m_tail b))];
      destruct (Z.leb_spec (m_tail b) (m_head b)); symmetry;
      first [apply Z.geb_le; lia | rewrite Z.geb_leb; apply Z.leb_gt; lia].
Qed.

(** ** The queue of unread elements *)

Lemma contents_length (b : CircularBuff) :
  length (contents b) = Z.to_nat (size b).
Proof. unfold contents. now rewrite length_fmap, length_seqZ. Qed.

Lemma contents_lookup_lt (b : CircularBuff) (i : nat) :
  Z.of_nat i < size b -> contents b !! i = Some (slot b (Z.of_nat i)).
Proof.
  intros H. unfold contents. rewrite list_lookup_fmap, lookup_seqZ_lt by assumption.
  reflexivity.
Qed.

Lemma contents_lookup_ge (b : CircularBuff) (i : nat) :
  size b <= Z.of_nat i -> contents b !! i = None.
Proof.
  intros H. unfold contents. rewrite list_lookup_fmap, lookup_seqZ_ge by assumption.
  reflexivity.
Qed.

(** Under the invariant a slot of the queue is a slot of the store. *)
Lemma slot_lookup (b : CircularBuff) (k : Z) :
  Inv b ->
  m_buf b !! Z.to_nat ((m_tail b + k) mod m_maxSize b) = Some (slot b k).
Proof.
  intros [Hc Hb Hh Ht Hf].
  pose proof (Z.mod_pos_bound (m_tail b + k) (m_maxSize b)) as Hm.
  assert (Hlt : (Z.to_nat ((m_tail b + k) mod m_maxSize b) < length (m_buf b))%nat) by lia.
  destruct (lookup_lt_is_Some_2 _ _ Hlt) as [v Hv].
  unfold slot. now rewrite Hv.
Qed.

Lemma slot_after_get (b : CircularBuff) (k : Z) :
  slot (after_get b) k = slot b (k + 1).
Proof.
  unfold slot, after_get, next; simpl.
  rewrite Zplus_mod_idemp_l.
  now replace (m_tail b + 1 + k) with (m_tail b + (k + 1)) by lia.
Qed.

(** [get] on a non-empty buffer takes the oldest element off the queue. *)
Lemma contents_get (b : CircularBuff) (v : T) :
  Inv b -> empty b = false ->
  m_buf b !! Z.to_nat (m_tail b) = Some v ->
  contents b = v :: contents (after_get b).
Proof.
  intros I E Hv.
  pose proof (size_after_get b I E) as Hs.
  pose proof (size_range _ (Inv_after_get b I)) as Hr.
  apply list_eq. intros [| i].
  - rewrite contents_lookup_lt by lia. simpl. f_equal.
    unfold slot. rewrite Z.add_0_r, Z.mod_small by (destruct I; lia).
    now rewrite Hv.
  - simpl. destruct (Z.lt_ge_cases (Z.of_nat (S i)) (size b)) as [L | L].
    + rewrite !contents_lookup_lt by lia. rewrite slot_after_get.
      do 2 f_equal. lia.
    + rewrite !contents_lookup_ge by lia. reflexivity.
Qed.

Lemma slot_after_put_old (item : T) (b : CircularBuff) (k : Z) :
  Inv b -> m_full b = false -> 0 <= k < size b ->
  slot (after_put item b) k = slot b k.
Proof.
  intros I F Hk. rewrite (size_cases b I), F in Hk.
  destruct I as [Hc Hb Hh Ht Hf].
  unfold slot, after_put; simpl. rewrite F.
  rewrite list_lookup_insert_ne; [reflexivity |].
  assert (Hne : (m_tail b + k) mod m_maxSize b <> m_head b).
  { destruct (Z.leb_spec (m_tail b) (m_head b)).
    - rewrite Z.mod_small by lia. lia.
    - rewrite add_mod_cases by lia.
      destruct (Z.ltb_spec (m_tail b + k) (m_maxSize b)); lia. }
  pose proof (Z.mod_pos_bound (m_tail b + k) (m_maxSize b)). lia.
Qed.

Lemma slot_after_put_new (item : T) (b : CircularBuff) :
  Inv b -> m_full b = false ->
  slot (after_put item b) (size b) = item.
Proof.
  intros I F. rewrite (size_eq b I), F.
  destruct I as [Hc Hb Hh Ht Hf].
  unfold slot, after_put; simpl. rewrite F.
  rewrite Zplus_mod_idemp_r.
  replace (m_tail b + (m_head b - m_tail b)) with (m_head b) by lia.
  rewrite Z.mod_small by lia.
  rewrite list_lookup_insert_eq by lia. reflexivity.
Qed.

(** [put] with room left appends to the queue. *)
Lemma contents_put_room (item : T) (b : CircularBuff) :
  Inv b -> m_full b = false ->
  contents (after_put item b) = contents b ++ [item].
Proof.
  intros I F.
  pose proof (size_after_put item b I) as Hs. rewrite F in Hs.
  pose proof (size_range b I) as Hr.
  apply list_eq. intros i.
  destruct (Z.lt_trichotomy (Z.of_nat i) (size b)) as [L | [L | L]].
  - rewrite lookup_app_l by (rewrite contents_length; lia).
    rewrite !contents_lookup_lt by lia.
    f_equal. apply slot_after_put_old; auto. lia.
  - rewrite lookup_app_r by (rewrite contents_length; lia).
    rewrite contents_length.
    replace (i - Z.to_nat (size b))%nat with 0%nat by lia. simpl.
    rewrite contents_lookup_lt by lia. f_equal.
    rewrite L. now apply slot_after_put_new.
  - rewrite lookup_app_r by (rewrite contents_length; lia).
    rewrite contents_length.
    rewrite contents_lookup_ge by lia.
    destruct (i - Z.to_nat (size b))%nat as [| j] eqn:Ej; [lia | reflexivity].
Qed.

(** [put] on a full buffer drops the oldest element and appends. *)
Lemma contents_put_full (item : T) (b : CircularBuff) :
  Inv b -> m_full b = true ->
  contents (after_put item b) = drop 1 (contents b) ++ [item].
Proof.
  intros I F.
  pose proof (size_after_put item b I) as Hs. rewrite F in Hs.
  pose proof (size_cases b I) as Hs0. rewrite F in Hs0.
  destruct I as [Hc Hb Hh Ht Hf]. specialize (Hf F).
  assert (Hlen : length (drop 1 (contents b)) = Z.to_nat (m_maxSize b - 1)).
  { rewrite length_drop, contents_length. lia. }
  apply list_eq. intros i.
  destruct (Z.lt_trichotomy (Z.of_nat i) (m_maxSize b - 1)) as [L | [L | L]].
  - rewrite lookup_app_l by lia. rewrite lookup_drop.
    rewrite !contents_lookup_lt by lia. f_equal.
    unfold slot, after_put, next; simpl. rewrite F.
    rewrite Zplus_mod_idemp_l.
    replace (m_tail b + 1 + Z.of_nat i) with (m_tail b + Z.of_nat (1 + i)) by lia.
    rewrite list_lookup_insert_ne; [reflexivity |].
    assert ((m_tail b + Z.of_nat (1 + i)) mod m_maxSize b <> m_head b).
    { rewrite add_mod_cases by lia.
      destruct (Z.ltb_spec (m_tail b + Z.of_nat (1 + i)) (m_maxSize b)); lia. }
    pose proof (Z.mod_pos_bound (m_tail b + Z.of_nat (1 + i)) (m_maxSize b)). lia.
  - rewrite lookup_app_r by lia. rewrite Hlen.
    replace (i - Z.to_nat (m_maxSize b - 1))%nat with 0%nat by lia. simpl.
    rewrite contents_lookup_lt by lia. f_equal.
    unfold slot, after_put, next; simpl. rewrite F.
    rewrite Zplus_mod_idemp_l, L.
    replace (m_tail b + 1 + (m_maxSize b - 1)) with (m_tail b + 1 * m_maxSize b) by lia.
    rewrite Z_mod_plus_full, Z.mod_small by lia.
    rewrite Hf, list_lookup_insert_eq by lia. reflexivity.
  - rewrite lookup_app_r by lia. rewrite Hlen.
    rewrite contents_lookup_ge by lia.
    destruct (i - Z.to_nat (m_maxSize b - 1))%nat as [| j] eqn:Ej; [lia | reflexivity].
Qed.

Lemma contents_reset (b : CircularBuff) : contents (after_reset b) = [].
Proof.
  unfold contents, size, after_reset; simpl.
  rewrite Z.geb_leb, Z.leb_refl, Z.sub_diag. reflexivity.
Qed.


(** ** Runs of [get] and [put] *)

Lemma size_pos_not_empty (b : CircularBuff) :
  Inv b -> 0 < size b -> empty b = false.
Proof.
  intros I H. destruct (empty b) eqn:E; [| reflexivity].
  apply (size_0_empty b I) in E. lia.
Qed.

Lemma after_gets_frame (k : nat) (b : CircularBuff) :
  m_buf (after_gets k b) = m_buf b /\
  m_head (after_gets k b) = m_head b /\
  m_maxSize (after_gets k b) = m_maxSize b.
Proof.
  revert b. induction k as [| k IH]; intros b; simpl; [auto |].
  destruct (IH (after_get b)) as (-> & -> & ->). auto.
Qed.

Lemma after_gets_spec (k : nat) (b : CircularBuff) :
  Inv b -> Z.of_nat k <= size b ->
  Inv (after_gets k b) /\
  size (after_gets k b) = size b - Z.of_nat k /\
  contents (after_gets k b) = drop k (contents b).
Proof.
  revert b. induction k as [| k IH]; intros b I Hk; simpl.
  - split; [assumption | split; [lia | reflexivity]].
  - assert (E : empty b = false) by (apply size_pos_not_empty; [assumption | lia]).
    destruct (get_eq b I E) as (v & Hv & _).
    pose proof (size_after_get b I E) as Hs.
    destruct (IH (after_get b) (Inv_after_get b I)) as (I' & Hs' & Hc'); [lia |].
    split; [assumption | split; [lia |]].
    rewrite Hc', (contents_get b v I E Hv). reflexivity.
Qed.

Lemma gets_eq (k : nat) (b : CircularBuff) :
  Inv b -> Z.of_nat k <= size b ->
  gets k b = Ok (take k (contents b), after_gets k b).
Proof.
  revert b. induction k as [| k IH]; intros b I Hk; simpl.
  - reflexivity.
  - assert (E : empty b = false) by (apply size_pos_not_empty; [assumption | lia]).
    destruct (get_eq b I E) as (v & Hv & Hg).
    pose proof (size_after_get b I E) as Hs.
    unfold bind. rewrite Hg, (IH (after_get b)) by (auto using Inv_after_get; lia).
    unfold ret. rewrite (contents_get b v I E Hv). reflexivity.
Qed.

(** Once the buffer is empty every further [get] answers [T()]. *)
Lemma gets_empty (k : nat) (b : CircularBuff) :
  empty b = true -> gets k b = Ok (replicate k T_default, b).
Proof.
  intros E. induction k as [| k IH]; simpl; [reflexivity |].
  unfold bind. rewrite (get_empty_eq b E), IH. reflexivity.
Qed.

(** *** The loops

    [write_loop] and [read_loop] count the iterations left; started with
    [size - i] of them they satisfy the equation of the [for] loop of the
    source, whose counter [i] cannot wrap while [i < size]. *)

Lemma write_loop_unfold (buff : list T) (size i : Z) :
  0 <= i -> size < SIZE_MODULUS ->
  write_loop buff (Z.to_nat (size - i)) i =
    if i <? size then
      x <- lift (arr_load buff i) ;;
      put x ;;
      write_loop buff (Z.to_nat (size - (i + 1))) (i + 1)
    else ret tt.
Proof.
  intros Hi Hs. destruct (Z.ltb_spec i size) as [L | L].
  - replace (Z.to_nat (size - i)) with (S (Z.to_nat (size - (i + 1)))) by lia.
    cbn [write_loop]. rewrite wrap_small by lia. reflexivity.
  - replace (Z.to_nat (size - i)) with 0%nat by lia. reflexivity.
Qed.

Lemma read_loop_unfold (buff : list T) (size i : Z) :
  0 <= i -> size < SIZE_MODULUS ->
  read_loop (Z.to_nat (size - i)) i buff =
    if i <? size then
      e <- load empty ;;
      if eqb true e then ret (i, buff)
      else
        v <- get ;;
        buff' <- lift (arr_store buff i v) ;;
        read_loop (Z.to_nat (size - (i + 1))) (i + 1) buff'
    else ret (i, buff).
Proof.
  intros Hi Hs. destruct (Z.ltb_spec i size) as [L | L].
  - replace (Z.to_nat (size - i)) with (S (Z.to_nat (size - (i + 1)))) by lia.
    cbn [read_loop]. rewrite wrap_small by lia. reflexivity.
  - replace (Z.to_nat (size - i)) with 0%nat by lia. reflexivity.
Qed.

(** *** [read] *)

Lemma read_loop_eq (n : nat) (i : Z) (dest : list T) (b : CircularBuff) :
  Inv b -> 0 <= i -> i + size b < SIZE_MODULUS ->
  i + Z.min (Z.of_nat n) (size b) <= Z.of_nat (length dest) ->
  read_loop n i dest b =
    Ok ((i + Z.min (Z.of_nat n) (size b),
         take (Z.to_nat i) dest
           ++ take (Z.to_nat (Z.min (Z.of_nat n) (size b))) (contents b)
           ++ drop (Z.to_nat (i + Z.min (Z.of_nat n) (size b))) dest),
        after_gets (Z.to_nat (Z.min (Z.of_nat n) (size b))) b).
Proof.
  revert i dest b. induction n as [| n IH]; intros i dest b I Hi Hw Hd.
  - pose proof (size_range b I) as Hr. destruct I.
    replace (Z.min (Z.of_nat 0) (size b)) with 0 in * by lia.
    simpl. unfold ret. rewrite Z.add_0_r, take_drop. reflexivity.
  - pose proof (size_range b I) as Hr.
    cbn [read_loop]. unfold bind at 1. unfold load at 1.
    destruct (empty b) eqn:E; cbn [eqb].
    + pose proof (proj2 (size_0_empty b I) E) as Hz. rewrite Hz in *.
      replace (Z.min (Z.of_nat (S n)) 0) with 0 in * by lia.
      simpl. unfold ret. rewrite Z.add_0_r, take_drop. reflexivity.
    + destruct (get_eq b I E) as (v & Hv & Hg).
      pose proof (size_after_get b I E) as Hs.
      assert (Hpos : 0 < size b).
      { destruct (Z.eq_dec (size b) 0) as [Z0 | Z0]; [| lia].
        apply (size_0_empty b I) in Z0. congruence. }
      unfold bind at 1. rewrite Hg.
      unfold bind at 1, lift, arr_store, in_range.
      assert (E1 : (0 <=? i) && (i <? Z.of_nat (length dest)) = true).
      { apply andb_true_iff. split; [apply Z.leb_le | apply Z.ltb_lt]; lia. }
      rewrite E1. rewrite (wrap_small (i + 1)) by lia.
      rewrite IH; [| now apply Inv_after_get | lia | lia | rewrite length_insert; lia].
      rewrite Hs.
      replace (Z.min (Z.of_nat (S n)) (size b))
        with (1 + Z.min (Z.of_nat n) (size b - 1)) by lia.
      set (c := Z.min (Z.of_nat n) (size b - 1)).
      assert (Hc : 0 <= c) by lia.
      replace (Z.to_nat (1 + c)) with (S (Z.to_nat c)) by lia.
      replace (i + 1 + c) with (i + (1 + c)) by lia.
      rewrite (contents_get b v I E Hv). cbn [after_gets take].
      replace (Z.to_nat (i + 1)) with (S (Z.to_nat i)) by lia.
      rewrite drop_insert_lt by lia.
      rewrite (take_S_r _ _ v) by (apply list_lookup_insert_eq; lia).
      rewrite take_insert_ge by lia.
      rewrite <- app_assoc. reflexivity.
Qed.

(** *** [write] *)

Lemma write_loop_eq (buff : list T) (n : nat) (i : Z) (b : CircularBuff) :
  Inv b -> 0 <= i -> i + Z.of_nat n <= Z.of_nat (length buff) ->
  i + Z.of_nat n < SIZE_MODULUS ->
  write_loop buff n i b =
    Ok (tt, after_puts (take n (drop (Z.to_nat i) buff)) b).
Proof.
  revert i b. induction n as [| n IH]; intros i b I Hi Hl Hw.
  - reflexivity.
  - cbn [write_loop]. unfold bind at 1, lift, arr_load, in_range.
    assert (E1 : (0 <=? i) && (i <? Z.of_nat (length buff)) = true).
    { apply andb_true_iff. split; [apply Z.leb_le | apply Z.ltb_lt]; lia. }
    rewrite E1.
    assert (Hlt : (Z.to_nat i < length buff)%nat) by lia.
    destruct (lookup_lt_is_Some_2 _ _ Hlt) as [x Hx]. rewrite Hx.
    unfold bind at 1. rewrite (put_eq x b I).
    rewrite (wrap_small (i + 1)) by lia.
    rewrite IH; [| now apply Inv_after_put | lia | lia | lia].
    replace (Z.to_nat (i + 1)) with (S (Z.to_nat i)) by lia.
    rewrite (drop_S _ x _ Hx). reflexivity.
Qed.

Lemma Inv_after_puts (items : list T) (b : CircularBuff) :
  Inv b -> Inv (after_puts items b).
Proof.
  revert b. induction items as [| x items IH]; intros b I; simpl; [assumption |].
  apply IH. now apply Inv_after_put.
Qed.

Lemma capacity_after_puts (items : list T) (b : CircularBuff) :
  capacity (after_puts items b) = capacity b.
Proof.
  revert b. induction items as [| x items IH]; intros b; simpl; [reflexivity |].
  now rewrite IH.
Qed.

(** *** The queue after a run of [put]s: the last [capacity] elements *)

Lemma contents_after_put (item : T) (b : CircularBuff) :
  Inv b ->
  contents (after_put item b) =
    drop (length (contents b ++ [item]) - Z.to_nat (capacity b)) (contents b ++ [item]).
Proof.
  intros I. pose proof (size_range b I) as Hr.
  pose proof (size_cases b I) as Hs.
  rewrite length_app, contents_length. cbn [length]. unfold capacity.
  destruct (m_full b) eqn:F.
  - rewrite (contents_put_full item b I F), Hs.
    replace (Z.to_nat (m_maxSize b) + 1 - Z.to_nat (m_maxSize b))%nat with 1%nat by lia.
    rewrite drop_app_le; [reflexivity |].
    rewrite contents_length. destruct I. lia.
  - rewrite (contents_put_room item b I F).
    assert (size b < m_maxSize b).
    { rewrite Hs. destruct I. destruct (Z.leb_spec (m_tail b) (m_head b)); lia. }
    replace (Z.to_nat (size b) + 1 - Z.to_nat (m_maxSize b))%nat with 0%nat by lia.
    reflexivity.
Qed.

Lemma capacity_after_put (item : T) (b : CircularBuff) :
  capacity (after_put item b) = capacity b.
Proof. reflexivity. Qed.

Lemma contents_after_puts (items : list T) (b : CircularBuff) :
  Inv b ->
  contents (after_puts items b) =
    drop (length (contents b ++ items) - Z.to_nat (capacity b)) (contents b ++ items).
Proof.
  revert b. induction items as [| x items IH]; intros b I.
  - pose proof (size_range b I) as Hr. simpl. rewrite app_nil_r, contents_length.
    unfold capacity.
    replace (Z.to_nat (size b) - Z.to_nat (m_maxSize b))%nat with 0%nat by lia.
    reflexivity.
  - change (after_puts (x :: items) b) with (after_puts items (after_put x b)).
    rewrite (IH _ (Inv_after_put x b I)), capacity_after_put.
    rewrite (contents_after_put x b I).
    pose proof (size_range b I) as Hr.
    replace (contents b ++ x :: items) with ((contents b ++ [x]) ++ items)
      by (now rewrite <- app_assoc).
    set (L := contents b ++ [x]).
    assert (HL : length L = S (Z.to_nat (size b))).
    { unfold L. rewrite length_app, contents_length. simpl. lia. }
    set (c := Z.to_nat (capacity b)).
    assert (Hc : (Z.to_nat (size b) <= c)%nat) by (unfold c, capacity; lia).
    rewrite <- (drop_app_le L items (length L - c)) by lia.
    rewrite drop_drop. f_equal.
    rewrite length_drop, !length_app. lia.
Qed.

Lemma puts_eq (items : list T) (b : CircularBuff) :
  Inv b -> puts items b = Ok (tt, after_puts items b).
Proof.
  revert b. induction items as [| x items IH]; intros b I; simpl.
  - reflexivity.
  - unfold bind. rewrite (put_eq x b I). apply IH. now apply Inv_after_put.
Qed.

(** ** Reachable states satisfy the invariant *)

Lemma zero_capacity_empty (b : CircularBuff) : zero_capacity b -> empty b = true.
Proof. intros (_ & Hh & Ht & _ & Hf). apply empty_iff. split; congruence. Qed.

Lemma put_zero_capacity (item : T) (b : CircularBuff) :
  zero_capacity b -> put item b = Undefined OutOfBounds.
Proof.
  intros (Hb & Hh & _). unfold put, bind, load, lift, arr_store, in_range.
  rewrite Hb, Hh. reflexivity.
Qed.

Lemma read_loop_empty (n : nat) (i : Z) (dest : list T) (b : CircularBuff) :
  empty b = true -> read_loop n i dest b = Ok ((i, dest), b).
Proof.
  intros E. destruct n; simpl; [reflexivity |].
  unfold bind, load. rewrite E. reflexivity.
Qed.

Lemma write_loop_zero_capacity (buff : list T) (n : nat) (i : Z) (b b' : CircularBuff) :
  zero_capacity b -> write_loop buff n i b = Ok (tt, b') -> b' = b.
Proof.
  intros Z0. destruct n; simpl.
  - unfold ret. congruence.
  - unfold bind at 1, lift. destruct (arr_load buff i); [| discriminate].
    unfold bind at 1. rewrite (put_zero_capacity _ b Z0). discriminate.
Qed.

Lemma write_loop_Inv (buff : list T) (n : nat) (i : Z) (b b' : CircularBuff) :
  Inv b -> write_loop buff n i b = Ok (tt, b') -> Inv b'.
Proof.
  revert i b. induction n as [| n IH]; intros i b I; simpl.
  - unfold ret. congruence.
  - unfold bind at 1, lift. destruct (arr_load buff i) as [x |]; [| discriminate].
    unfold bind at 1. rewrite (put_eq x b I).
    apply IH. now apply Inv_after_put.
Qed.

Lemma read_loop_Inv (n : nat) (i : Z) (dest : list T) (r : Z * list T)
      (b b' : CircularBuff) :
  Inv b -> read_loop n i dest b = Ok (r, b') -> Inv b'.
Proof.
  revert i dest b. induction n as [| n IH]; intros i dest b I; simpl.
  - unfold ret. congruence.
  - unfold bind at 1, load. destruct (empty b) eqn:E; cbn [eqb].
    + unfold ret. congruence.
    + destruct (get_eq b I E) as (v & _ & Hg).
      unfold bind at 1. rewrite Hg.
      unfold bind at 1, lift. destruct (arr_store dest i v); [| discriminate].
      apply IH. now apply Inv_after_get.
Qed.

Lemma reachable_cases (b : CircularBuff) :
  reachable b -> Inv b \/ zero_capacity b.
Proof.
  induction 1 as [n b Hn Hc | b b' item _ IH Hp | b b' v _ IH Hg | b b' _ IH Hr
                 | b b' buff n _ IH Hw | b b' buff n r _ IH Hr].
  - destruct (Z.eq_dec n 0) as [-> | Hne].
    + right. injection Hc as <-. repeat split.
    + left. destruct (Inv_ctor n) as (b0 & Hb0 & I & _); [lia |]. congruence.
  - destruct IH as [I | Z0].
    + left. rewrite (put_eq item b I) in Hp. injection Hp as <-.
      now apply Inv_after_put.
    + rewrite (put_zero_capacity item b Z0) in Hp. discriminate.
  - destruct (empty b) eqn:E.
    + rewrite (get_empty_eq b E) in Hg. injection Hg as _ <-. exact IH.
    + destruct IH as [I | Z0].
      * left. destruct (get_eq b I E) as (v' & _ & Hg').
        rewrite Hg' in Hg. injection Hg as _ <-. now apply Inv_after_get.
      * rewrite (zero_capacity_empty b Z0) in E. discriminate.
  - rewrite reset_eq in Hr. injection Hr as <-. destruct IH as [I | Z0].
    + left. now apply Inv_after_reset.
    + right. destruct Z0 as (Hb & Hh & Ht & Hm & Hf).
      unfold zero_capacity, after_reset; simpl. auto.
  - destruct IH as [I | Z0].
    + left. eapply write_loop_Inv; eassumption.
    + right. apply (write_loop_zero_capacity _ _ _ _ _ Z0) in Hw. now subst.
  - destruct IH as [I | Z0].
    + left. eapply read_loop_Inv; eassumption.
    + right. unfold read in Hr.
      rewrite (read_loop_empty _ _ _ _ (zero_capacity_empty b Z0)) in Hr.
      injection Hr as _ <-. exact Z0.
Qed.

Lemma reachable_Inv (b : CircularBuff) :
  reachable b -> 0 < capacity b -> Inv b.
Proof.
  intros R Hc. destruct (reachable_cases b R) as [I | (_ & _ & _ & Hm & _)];
    [assumption |]. unfold capacity in Hc. lia.
Qed.

(** ** Properties of the public interface *)

Lemma put_full_eq (item : T) (b : CircularBuff) :
  Inv b -> full b = true ->
  put item b =
    Ok (tt, mkCircularBuff (<[Z.to_nat (m_head b) := item]> (m_buf b))
                           ((m_head b + 1) mod capacity b)
                           ((m_tail b + 1) mod capacity b)
                           (capacity b) true).
Proof.
  intros I F. rewrite (put_eq item b I). unfold full in F.
  destruct I as [Hc Hb Hh Ht Hf]. unfold after_put, next, capacity. rewrite F.
  rewrite (Hf F), Z.eqb_refl. reflexivity.
Qed.

(** C3. On an empty buffer of positive capacity, [put(x)] followed by
    [get()] returns exactly [x] and leaves the buffer empty again. *)
Theorem put_get_on_empty (b : CircularBuff) (x : T) :
  Inv b -> empty b = true ->
  exists b', (put x ;; get) b = Ok (x, b') /\ empty b' = true.
Proof.
  intros I E. pose proof (Inv_after_put x b I) as I1.
  apply empty_iff in E. destruct E as [F Hht].
  assert (E1 : empty (after_put x b) = false).
  { apply empty_false_iff. unfold after_put; simpl. rewrite F.
    destruct (Z.eqb_spec (next b (m_head b)) (m_tail b)); [now left | now right]. }
  destruct (get_eq _ I1 E1) as (v & Hv & Hg).
  exists (after_get (after_put x b)). split.
  - unfold bind. rewrite (put_eq x b I), Hg. do 2 f_equal.
    destruct I as [Hc Hb Hh Ht Hf].
    unfold after_put in Hv; simpl in Hv. rewrite F, <- Hht in Hv.
    rewrite list_lookup_insert_eq in Hv by lia. congruence.
  - apply empty_iff. unfold after_get, after_put, next; simpl.
    rewrite F, Hht. auto.
Qed.

(** C4. In every reachable state of a buffer of positive capacity,
    [size()] is the capacity when the full flag is set and
    [(head - tail) mod capacity] otherwise; the two-branch computation of
    the source ([head - tail] when [head >= tail], else
    [capacity + head - tail], both in unsigned arithmetic) is equal to
    that modular formula. *)
Theorem size_is_modular_distance (b : CircularBuff) :
  reachable b -> 0 < capacity b ->
  size b = (if full b then capacity b
            else (m_head b - m_tail b) mod capacity b)
  /\ (if m_head b >=? m_tail b then wrap (m_head b - m_tail b)
      else wrap (wrap (capacity b + m_head b) - m_tail b))
     = (m_head b - m_tail b) mod capacity b.
Proof.
  intros R Hc. pose proof (reachable_Inv b R Hc) as I. split.
  - apply size_eq, I.
  - destruct I as [Hm Hb Hh Ht Hf]. unfold capacity.
    rewrite Z.geb_leb, sub_mod_cases by assumption.
    destruct (Z.leb_spec (m_tail b) (m_head b)).
    + apply wrap_small. lia.
    + apply wrap_add_sub; lia.
Qed.

(** C5. [get()] on an empty buffer returns [T()] and leaves head, tail,
    full flag and stored elements as they were; it is a normal return. *)
Theorem get_on_empty (b : CircularBuff) :
  empty b = true ->
  exists v b',
    get b = Ok (v, b') /\ v = T_default /\
    m_head b' = m_head b /\ m_tail b' = m_tail b /\ m_full b' = m_full b /\
    m_buf b' = m_buf b /\ b' = b.
Proof.
  intros E. exists T_default, b.
  split; [unfold get, bind, load, ret; now rewrite E |].
  repeat split.
Qed.

(** C6. [read(dest, n)], for a destination with room for the elements to
    transfer, returns [min(n, size())]; the elements land in [dest] at
    indices [0 .. count-1], oldest first (the very values [count]
    successive [get()] calls return); the slots of [dest] from [count] on
    are untouched; the call returns normally, so no access to the backing
    store or to [dest] was out of bounds. *)
Theorem read_transfers_min (b : CircularBuff) (dest : list T) (n : Z) :
  Inv b -> 0 <= n -> Z.min n (size b) <= Z.of_nat (length dest) ->
  let count := Z.min n (size b) in
  exists dest' b',
    read dest n b = Ok ((count, dest'), b') /\
    (size b < n -> count = size b) /\
    length dest' = length dest /\
    (forall k : nat, Z.of_nat k < count ->
       is_Some (dest' !! k) /\
       dest' !! k = contents b !! k /\
       dest' !! k = m_buf b !! Z.to_nat ((m_tail b + Z.of_nat k) mod capacity b)) /\
    (forall k : nat, count <= Z.of_nat k -> dest' !! k = dest !! k) /\
    gets (Z.to_nat count) b = Ok (take (Z.to_nat count) dest', b') /\
    contents b' = drop (Z.to_nat count) (contents b) /\
    m_buf b' = m_buf b.
Proof.
  intros I Hn Hd count. pose proof (size_range b I) as Hr.
  assert (Hw : 0 + size b < SIZE_MODULUS) by (destruct I; lia).
  assert (Hcount : Z.min (Z.of_nat (Z.to_nat n)) (size b) = count)
    by (unfold count; lia).
  pose proof (read_loop_eq (Z.to_nat n) 0 dest b I (Z.le_refl 0) Hw) as Hrd.
  rewrite Hcount in Hrd. specialize (Hrd ltac:(lia)).
  rewrite Z.add_0_l in Hrd. change (Z.to_nat 0) with 0%nat in Hrd.
  rewrite take_0, app_nil_l in Hrd.
  assert (Hlen : length (take (Z.to_nat count) (contents b)) = Z.to_nat count).
  { rewrite length_take, contents_length. unfold count. lia. }
  destruct (after_gets_spec (Z.to_nat count) b I) as (_ & _ & Hc');
    [unfold count; lia |].
  eexists _, _. split; [exact Hrd |].
  split; [unfold count; lia |].
  split; [rewrite length_app, Hlen, length_drop; unfold count in *; lia |].
  split; [| split; [| split; [| split]]].
  - intros k Hk. rewrite lookup_app_l by lia.
    rewrite lookup_take_lt by lia. unfold capacity.
    rewrite (slot_lookup b (Z.of_nat k) I).
    rewrite contents_lookup_lt by (unfold count in Hk; lia).
    split; [eexists; reflexivity | split; reflexivity].
  - intros k Hk. rewrite lookup_app_r by lia. rewrite Hlen, lookup_drop.
    f_equal. lia.
  - rewrite take_app_length' by (symmetry; exact Hlen).
    apply gets_eq; [assumption | unfold count; lia].
  - exact Hc'.
  - apply after_gets_frame.
Qed.

(** C7. From a state that satisfies the invariant -- in particular
    [0 <= head < capacity] and [0 <= tail < capacity] -- each of [put],
    [get], [write], [read] and [reset] returns normally in a state that
    satisfies it again, the queries leave the state as it is, and
    [empty()] holds exactly when the full flag is clear and
    [head == tail]. *)
Theorem operations_preserve_Inv (b : CircularBuff) :
  Inv b ->
  (0 <= m_head b < capacity b /\ 0 <= m_tail b < capacity b) /\
  (empty b = true <-> full b = false /\ m_head b = m_tail b) /\
  (forall item, exists b', put item b = Ok (tt, b') /\ Inv b') /\
  (exists v b', get b = Ok (v, b') /\ Inv b') /\
  (forall buff n, 0 <= n <= Z.of_nat (length buff) -> n < SIZE_MODULUS ->
     exists b', write buff n b = Ok (tt, b') /\ Inv b') /\
  (forall dest n, 0 <= n -> Z.min n (size b) <= Z.of_nat (length dest) ->
     exists r b', read dest n b = Ok (r, b') /\ Inv b') /\
  (exists b', reset b = Ok (tt, b') /\ Inv b') /\
  (load empty b = Ok (empty b, b) /\ load full b = Ok (full b, b) /\
   load capacity b = Ok (capacity b, b) /\ load size b = Ok (size b, b)).
Proof.
  intros I.
  split; [destruct I; unfold capacity; auto |].
  split; [apply empty_iff |].
  split; [intros item; exists (after_put item b);
          split; [now apply put_eq | now apply Inv_after_put] |].
  split.
  { destruct (empty b) eqn:E.
    - exists T_default, b. split; [now apply get_empty_eq | assumption].
    - destruct (get_eq b I E) as (v & _ & Hg).
      exists v, (after_get b). split; [assumption | now apply Inv_after_get]. }
  split.
  { intros buff n Hn Hw. eexists. split.
    - unfold write. apply write_loop_eq; [assumption | lia | lia | lia].
    - now apply Inv_after_puts. }
  split.
  { intros dest n Hn Hd. pose proof (size_range b I) as Hr.
    assert (Hw : 0 + size b < SIZE_MODULUS) by (destruct I; lia).
    pose proof (read_loop_eq (Z.to_nat n) 0 dest b I (Z.le_refl 0) Hw) as Hrd.
    replace (Z.min (Z.of_nat (Z.to_nat n)) (size b)) with (Z.min n (size b)) in Hrd by lia.
    eexists _, _. split; [apply Hrd; lia |].
    apply after_gets_spec; [assumption | lia]. }
  split; [exists (after_reset b); split; [apply reset_eq | now apply Inv_after_reset] |].
  repeat split.
Qed.

(** C8. [reset()] on any buffer, full or not, gives [empty() == true] and
    [size() == 0] and keeps [capacity()]; the slots of the backing store
    are not cleared, yet a following [get()] -- and every further one --
    answers the empty sentinel [T()] without reading a slot, and the
    queue of unread elements is empty.  What is read after later [put]s
    are those later items only (the last [capacity] of them, oldest
    first), never a value from before the reset. *)
Theorem reset_empties (b : CircularBuff) :
  exists b',
    reset b = Ok (tt, b') /\
    empty b' = true /\ size b' = 0 /\ capacity b' = capacity b /\
    m_buf b' = m_buf b /\
    get b' = Ok (T_default, b') /\
    (forall k, gets k b' = Ok (replicate k T_default, b')) /\
    contents b' = [] /\
    (Inv b ->
     forall (items : list T) (k : nat),
       (k <= length items)%nat -> Z.of_nat k <= capacity b ->
       exists b'',
         (puts items ;; gets k) b' =
           Ok (take k (drop (length items - Z.to_nat (capacity b)) items), b'')).
Proof.
  assert (E : empty (after_reset b) = true).
  { apply empty_iff. unfold after_reset; simpl. auto. }
  exists (after_reset b).
  split; [apply reset_eq |].
  split; [exact E |].
  split; [unfold size, after_reset; simpl; now rewrite Z.geb_leb, Z.leb_refl, Z.sub_diag |].
  split; [reflexivity |].
  split; [reflexivity |].
  split; [now apply get_empty_eq |].
  split; [intros k; now apply gets_empty |].
  split; [apply contents_reset |].
  intros I items k Hk Hcap.
  pose proof (Inv_after_reset b I) as I'.
  pose proof (Inv_after_puts items _ I') as I''.
  pose proof (contents_after_puts items _ I') as Hc.
  rewrite contents_reset, app_nil_l in Hc.
  change (capacity (after_reset b)) with (capacity b) in Hc.
  pose proof (contents_length (after_puts items (after_reset b))) as Hl.
  rewrite Hc, length_drop in Hl.
  pose proof (size_range _ I'') as Hr.
  eexists. unfold bind. rewrite (puts_eq items _ I').
  rewrite gets_eq; [rewrite Hc; reflexivity | assumption | lia].
Qed.

(** C9. Right after [put(item)] on a buffer of positive capacity the
    buffer is not empty: [empty()] is false and [size() >= 1]. *)
Theorem put_makes_nonempty (b : CircularBuff) (item : T) :
  Inv b ->
  exists b', put item b = Ok (tt, b') /\ empty b' = false /\ 1 <= size b'.
Proof.
  intros I. exists (after_put item b).
  split; [now apply put_eq |].
  pose proof (size_after_put item b I) as Hs.
  pose proof (size_range b I) as Hr.
  assert (H1 : 1 <= size (after_put item b)).
  { destruct (m_full b); destruct I; lia. }
  split; [| exact H1].
  apply size_pos_not_empty; [now apply Inv_after_put | lia].
Qed.

(** C10. Right after a [get()] on a non-empty buffer [full()] is false,
    whether or not the buffer was full before. *)
Theorem get_clears_full (b : CircularBuff) :
  Inv b -> empty b = false ->
  exists v b', get b = Ok (v, b') /\ full b' = false.
Proof.
  intros I E. destruct (get_eq b I E) as (v & _ & Hg).
  exists v, (after_get b). split; [exact Hg | reflexivity].
Qed.

(** ** Further properties of the member functions *)

(** *** What a call leaves alone, in any state *)

Lemma put_frame (item : T) (b b' : CircularBuff) :
  put item b = Ok (tt, b') ->
  m_maxSize b' = m_maxSize b /\
  length (m_buf b') = length (m_buf b) /\
  (m_full b = false -> m_tail b' = m_tail b).
Proof.
  unfold put, bind, load, lift, set_buf, set_head, set_tail, set_full, ret,
    arr_store, umod; simpl.
  destruct (in_range (m_buf b) (m_head b)); [| discriminate].
  destruct (m_full b); simpl;
    destruct (m_maxSize b =? 0) eqn:E; simpl; rewrite ?E; simpl; try discriminate;
    intros H; injection H as <-; simpl; rewrite length_insert;
    repeat split; auto; discriminate.
Qed.

Lemma get_frame (v : T) (b b' : CircularBuff) :
  get b = Ok (v, b') ->
  m_maxSize b' = m_maxSize b /\ m_buf b' = m_buf b /\ m_head b' = m_head b.
Proof.
  unfold get, bind, load, lift, set_full, set_tail, ret, arr_load, umod; simpl.
  destruct (empty b); simpl.
  - intros H. injection H as _ <-. auto.
  - destruct (in_range (m_buf b) (m_tail b)); [| discriminate].
    destruct (m_buf b !! Z.to_nat (m_tail b)); [| discriminate].
    destruct (m_maxSize b =? 0); simpl; [discriminate |].
    intros H. injection H as _ <-. auto.
Qed.

Lemma write_loop_frame (buff : list T) (n : nat) (i : Z) (b b' : CircularBuff) :
  write_loop buff n i b = Ok (tt, b') ->
  m_maxSize b' = m_maxSize b /\ length (m_buf b') = length (m_buf b).
Proof.
  revert i b. induction n as [| n IH]; intros i b; simpl.
  - unfold ret. intros H. injection H as <-. auto.
  - unfold bind at 1, lift. destruct (arr_load buff i) as [x |]; [| discriminate].
    unfold bind at 1. destruct (put x b) as [[[] b1] |] eqn:Hp; [| discriminate].
    intros H. apply IH in H. apply put_frame in Hp.
    destruct H as [-> ->], Hp as (-> & -> & _). auto.
Qed.

Lemma read_loop_frame (n : nat) (i : Z) (dest : list T) (r : Z * list T)
      (b b' : CircularBuff) :
  read_loop n i dest b = Ok (r, b') ->
  m_maxSize b' = m_maxSize b /\ m_buf b' = m_buf b /\ m_head b' = m_head b.
Proof.
  revert i dest b. induction n as [| n IH]; intros i dest b; simpl.
  - unfold ret. intros H. injection H as _ <-. auto.
  - unfold bind at 1, load. destruct (empty b); cbn [eqb].
    + unfold ret. intros H. injection H as _ <-. auto.
    + unfold bind at 1. destruct (get b) as [[v b1] |] eqn:Hg; [| discriminate].
      unfold bind at 1, lift. destruct (arr_store dest i v); [| discriminate].
      intros H. apply IH in H. apply get_frame in Hg.
      destruct H as (-> & -> & ->), Hg as (-> & -> & ->). auto.
Qed.


(** X2. In every reachable state, capacity 0 included, [size()] lies
    between 0 and [capacity()] and [empty()] holds exactly when [size()]
    is 0; with a positive capacity [full()] holds exactly when [size()]
    is the capacity. *)
Theorem size_within_capacity (b : CircularBuff) :
  reachable b ->
  0 <= size b <= capacity b /\
  (empty b = true <-> size b = 0) /\
  (0 < capacity b -> (full b = true <-> size b = capacity b)).
Proof.
  intros R. destruct (reachable_cases b R) as [I | Z0].
  - pose proof (size_range b I) as Hr. pose proof (size_cases b I) as Hs.
    split; [exact Hr |]. split; [symmetry; now apply size_0_empty |].
    intros _. unfold full, capacity. destruct I as [Hc Hb Hh Ht Hf].
    destruct (m_full b).
    + split; auto.
    + split; [discriminate |]. intros E. exfalso.
      destruct (Z.leb_spec (m_tail b) (m_head b)); lia.
  - pose proof (zero_capacity_empty b Z0) as E.
    destruct Z0 as (Hb & Hh & Ht & Hm & Hf).
    assert (Hs : size b = 0).
    { unfold size. rewrite Hf, Hh, Ht. reflexivity. }
    unfold capacity. rewrite Hs, Hm.
    split; [lia |]. split; [tauto | lia].
Qed.

(** X3. [put] on a buffer of positive capacity always returns; it raises
    [size()] by one, up to the capacity, and the buffer is full afterwards
    exactly when it held at least [capacity - 1] elements before. *)
Theorem put_grows_size (b : CircularBuff) (item : T) :
  Inv b ->
  exists b',
    put item b = Ok (tt, b') /\
    size b' = Z.min (size b + 1) (capacity b) /\
    (full b' = true <-> capacity b - 1 <= size b).
Proof.
  intros I. exists (after_put item b). split; [now apply put_eq |].
  pose proof (size_range b I) as Hr. pose proof (size_cases b I) as Hs.
  pose proof (size_after_put item b I) as Hp.
  pose proof (full_after_put item b I) as Hf'.
  unfold full, capacity in *. split.
  - rewrite Hp. destruct (m_full b); [lia |].
    destruct I as [Hc Hb Hh Ht Hf].
    destruct (Z.leb_spec (m_tail b) (m_head b)); lia.
  - rewrite Hf', Z.geb_leb, Z.leb_le. lia.
Qed.

(** X4. [get] on a non-empty buffer returns the oldest unread element --
    the one stored at [m_buf[tail]], the head of the queue -- lowers
    [size()] by one and leaves the rest of the queue in order. *)
Theorem get_takes_oldest (b : CircularBuff) :
  Inv b -> empty b = false ->
  exists v b',
    get b = Ok (v, b') /\
    m_buf b !! Z.to_nat (m_tail b) = Some v /\
    contents b = v :: contents b' /\
    size b' = size b - 1 /\
    m_tail b' = (m_tail b + 1) mod capacity b.
Proof.
  intros I E. destruct (get_eq b I E) as (v & Hv & Hg).
  exists v, (after_get b). split; [exact Hg |]. split; [exact Hv |].
  split; [now apply contents_get |].
  split; [now apply size_after_get | reflexivity].
Qed.

(** X5. [put] on a buffer that is not full discards nothing: the item
    goes to the end of the queue, behind every element still unread. *)
Theorem put_with_room_appends (b : CircularBuff) (item : T) :
  Inv b -> full b = false ->
  exists b',
    put item b = Ok (tt, b') /\
    contents b' = contents b ++ [item] /\
    size b' = size b + 1.
Proof.
  intros I F. exists (after_put item b). split; [now apply put_eq |].
  split; [now apply contents_put_room |].
  rewrite (size_after_put item b I). unfold full in F. now rewrite F.
Qed.

(** *** Bulk transfers *)

Lemma arr_load_Some {A : Type} (a : list A) (i : Z) (x : A) :
  0 <= i -> a !! Z.to_nat i = Some x -> arr_load a i = Ok x.
Proof.
  intros Hi Hx. unfold arr_load, in_range.
  pose proof (lookup_lt_Some _ _ _ Hx) as Hlt.
  assert (E : (0 <=? i) && (i <? Z.of_nat (length a)) = true).
  { apply andb_true_iff. split; [apply Z.leb_le | apply Z.ltb_lt]; lia. }
  now rewrite E, Hx.
Qed.

Lemma arr_load_past_end {A : Type} (a : list A) (i : Z) :
  Z.of_nat (length a) <= i -> arr_load a i = Undefined OutOfBounds.
Proof.
  intros Hi. unfold arr_load, in_range.
  replace (i <? Z.of_nat (length a)) with false by (symmetry; apply Z.ltb_ge; lia).
  now rewrite andb_false_r.
Qed.

Lemma arr_store_past_end {A : Type} (a : list A) (i : Z) (v : A) :
  Z.of_nat (length a) <= i -> arr_store a i v = Undefined OutOfBounds.
Proof.
  intros Hi. unfold arr_store, in_range.
  replace (i <? Z.of_nat (length a)) with false by (symmetry; apply Z.ltb_ge; lia).
  now rewrite andb_false_r.
Qed.

Lemma write_loop_puts (buff : list T) (n : nat) (i : Z) (b : CircularBuff) :
  0 <= i -> i + Z.of_nat n <= Z.of_nat (length buff) ->
  i + Z.of_nat n < SIZE_MODULUS ->
  write_loop buff n i b = puts (take n (drop (Z.to_nat i) buff)) b.
Proof.
  revert i b. induction n as [| n IH]; intros i b Hi Hl Hw.
  - reflexivity.
  - assert (Hlt : (Z.to_nat i < length buff)%nat) by lia.
    destruct (lookup_lt_is_Some_2 _ _ Hlt) as [x Hx].
    rewrite (drop_S _ x _ Hx). cbn [write_loop take puts].
    unfold bind at 1, lift. rewrite (arr_load_Some buff i x Hi Hx).
    unfold bind. destruct (put x b) as [[[] b1] |]; [| reflexivity].
    rewrite (wrap_small (i + 1)) by lia.
    rewrite IH by lia. now replace (Z.to_nat (i + 1)) with (S (Z.to_nat i)) by lia.
Qed.

Lemma write_loop_short (buff : list T) (n : nat) (i : Z) (b : CircularBuff) :
  Inv b -> 0 <= i <= Z.of_nat (length buff) ->
  Z.of_nat (length buff) < i + Z.of_nat n -> i + Z.of_nat n <= SIZE_MODULUS ->
  write_loop buff n i b = Undefined OutOfBounds.
Proof.
  revert i b. induction n as [| n IH]; intros i b I Hi Hl Hw.
  - lia.
  - cbn [write_loop]. unfold bind at 1, lift.
    destruct (Z.eq_dec i (Z.of_nat (length buff))) as [E | E].
    + now rewrite arr_load_past_end by lia.
    + assert (Hlt : (Z.to_nat i < length buff)%nat) by lia.
      destruct (lookup_lt_is_Some_2 _ _ Hlt) as [x Hx].
      rewrite (arr_load_Some buff i x) by (lia || assumption).
      unfold bind at 1. rewrite (put_eq x b I).
      rewrite (wrap_small (i + 1)) by lia.
      apply IH; [now apply Inv_after_put | lia | lia | lia].
Qed.

Lemma read_loop_short (n : nat) (i : Z) (dest : list T) (b : CircularBuff) :
  Inv b -> 0 <= i <= Z.of_nat (length dest) -> i + size b < SIZE_MODULUS ->
  Z.of_nat (length dest) < i + Z.min (Z.of_nat n) (size b) ->
  read_loop n i dest b = Undefined OutOfBounds.
Proof.
  revert i dest b. induction n as [| n IH]; intros i dest b I Hi Hw Hl.
  - pose proof (size_range b I). lia.
  - pose proof (size_range b I) as Hr.
    assert (E : empty b = false) by (apply size_pos_not_empty; [assumption | lia]).
    destruct (get_eq b I E) as (v & _ & Hg).
    pose proof (size_after_get b I E) as Hs.
    cbn [read_loop]. unfold bind at 1, load. rewrite E. cbn [eqb].
    unfold bind at 1. rewrite Hg. unfold bind at 1, lift.
    destruct (Z.eq_dec i (Z.of_nat (length dest))) as [Ei | Ei].
    + now rewrite arr_store_past_end by lia.
    + unfold arr_store, in_range.
      assert (E1 : (0 <=? i) && (i <? Z.of_nat (length dest)) = true).
      { apply andb_true_iff. split; [apply Z.leb_le | apply Z.ltb_lt]; lia. }
      rewrite E1. rewrite (wrap_small (i + 1)) by lia.
      apply IH; [now apply Inv_after_get | rewrite length_insert; lia | lia |].
      rewrite length_insert. lia.
Qed.

Lemma size_capacity_full (b : CircularBuff) :
  Inv b -> size b = m_maxSize b -> m_full b = true.
Proof.
  intros I Hs. rewrite (size_cases b I) in Hs. destruct I as [Hc Hb Hh Ht Hf].
  destruct (m_full b); [reflexivity |].
  destruct (Z.leb_spec (m_tail b) (m_head b)); lia.
Qed.

Lemma size_after_puts (items : list T) (b : CircularBuff) :
  Inv b ->
  size (after_puts items b) = Z.min (size b + Z.of_nat (length items)) (capacity b).
Proof.
  intros I. pose proof (Inv_after_puts items b I) as I'.
  pose proof (size_range b I) as Hr. pose proof (size_range _ I') as Hr'.
  pose proof (contents_length (after_puts items b)) as Hl.
  rewrite (contents_after_puts items b I), length_drop, length_app, contents_length in Hl.
  unfold capacity in *. lia.
Qed.

(** X7. [write(buff, n)], given an array of at least [n] items, is the
    same computation as [n] calls of [put], one per item in order --
    in every state, so also in what it does when a [put] is undefined. *)
Theorem write_is_puts (buff : list T) (n : Z) (b : CircularBuff) :
  0 <= n <= Z.of_nat (length buff) -> n < SIZE_MODULUS ->
  write buff n b = puts (take (Z.to_nat n) buff) b.
Proof.
  intros Hn Hw. unfold write.
  rewrite write_loop_puts by lia. reflexivity.
Qed.

(** X8. [write(buff, n)] on a buffer of positive capacity returns and
    leaves in the queue the newest [capacity] elements of the old queue
    followed by the [n] items; so [size()] grows by [n] up to the
    capacity, and when [n >= capacity] the buffer is full of the last
    [capacity] items and nothing older is left. *)
Theorem write_keeps_newest (b : CircularBuff) (buff : list T) (n : Z) :
  Inv b -> 0 <= n <= Z.of_nat (length buff) -> n < SIZE_MODULUS ->
  let items := take (Z.to_nat n) buff in
  exists b',
    write buff n b = Ok (tt, b') /\
    contents b' =
      drop (length (contents b ++ items) - Z.to_nat (capacity b)) (contents b ++ items) /\
    size b' = Z.min (size b + n) (capacity b) /\
    (capacity b <= n ->
       full b' = true /\ contents b' = drop (Z.to_nat (n - capacity b)) items).
Proof.
  intros I Hn Hw items.
  assert (Hli : length items = Z.to_nat n) by (unfold items; rewrite length_take; lia).
  pose proof (size_range b I) as Hr.
  pose proof (Inv_after_puts items b I) as I'.
  pose proof (size_after_puts items b I) as Hs. rewrite Hli in Hs.
  exists (after_puts items b).
  split; [unfold write; now rewrite write_loop_eq by (assumption || lia) |].
  split; [now apply contents_after_puts |].
  split; [rewrite Hs; lia |].
  intros Hc. split.
  - apply size_capacity_full; [assumption |]. rewrite Hs.
    pose proof (capacity_after_puts items b) as Hcap. unfold capacity in *. lia.
  - rewrite (contents_after_puts items b I).
    rewrite drop_app_ge by (rewrite length_app, contents_length; unfold capacity in *; lia).
    f_equal. rewrite length_app, contents_length. unfold capacity in *. lia.
Qed.

(** X6. Round trip: [write] of [n] items into a buffer with room for
    them, followed by a [read] of everything held, delivers the elements
    that were already unread and then the [n] items, in order, and leaves
    the buffer empty. *)
Theorem write_read_round_trip (b : CircularBuff) (buff dest : list T) (n : Z) :
  Inv b -> 0 <= n <= Z.of_nat (length buff) ->
  size b + n <= capacity b -> size b + n <= Z.of_nat (length dest) ->
  let items := take (Z.to_nat n) buff in
  exists b',
    (write buff n ;; read dest (size b + n)) b =
      Ok ((size b + n, contents b ++ items ++ drop (Z.to_nat (size b + n)) dest), b') /\
    empty b' = true.
Proof.
  intros I Hn Hc Hd items.
  assert (Hli : length items = Z.to_nat n) by (unfold items; rewrite length_take; lia).
  pose proof (size_range b I) as Hr.
  assert (Hcap : capacity b < SIZE_MODULUS) by (destruct I; unfold capacity; lia).
  pose proof (Inv_after_puts items b I) as I'.
  pose proof (size_after_puts items b I) as Hs. rewrite Hli in Hs.
  replace (Z.min (size b + Z.of_nat (Z.to_nat n)) (capacity b)) with (size b + n) in Hs by lia.
  assert (Hq : contents (after_puts items b) = contents b ++ items).
  { rewrite (contents_after_puts items b I), length_app, contents_length.
    replace (Z.to_nat (size b) + length items - Z.to_nat (capacity b))%nat with 0%nat by lia.
    reflexivity. }
  pose proof (read_loop_eq (Z.to_nat (size b + n)) 0 dest _ I' (Z.le_refl 0)) as Hrd.
  rewrite Hs in Hrd.
  replace (Z.min (Z.of_nat (Z.to_nat (size b + n))) (size b + n)) with (size b + n) in Hrd by lia.
  specialize (Hrd ltac:(lia) ltac:(lia)).
  destruct (after_gets_spec (Z.to_nat (size b + n)) _ I') as (I'' & Hs'' & _); [lia |].
  eexists. split.
  - unfold bind, write. rewrite write_loop_eq by (assumption || lia).
    change (take (Z.to_nat n) (drop (Z.to_nat 0) buff)) with items.
    unfold read. rewrite Hrd. do 2 f_equal.
    rewrite Z.add_0_l, take_0, app_nil_l, Hq.
    rewrite take_ge by (rewrite length_app, contents_length; lia).
    now rewrite <- app_assoc.
  - apply (size_0_empty _ I''). lia.
Qed.

(** X9. [write(buff, n)] with an array of fewer than [n] items runs past
    the end of the array: the call is undefined (out of bounds). *)
Theorem write_past_array (b : CircularBuff) (buff : list T) (n : Z) :
  Inv b -> Z.of_nat (length buff) < n -> n < SIZE_MODULUS ->
  write buff n b = Undefined OutOfBounds.
Proof.
  intros I Hl Hw. unfold write. apply write_loop_short; [assumption | lia | lia | lia].
Qed.

(** X10. [read(dest, n)] with a destination of fewer than
    [min(n, size())] slots stores past the end of the destination: the
    call is undefined (out of bounds). *)
Theorem read_past_destination (b : CircularBuff) (dest : list T) (n : Z) :
  Inv b -> Z.of_nat (length dest) < Z.min n (size b) ->
  read dest n b = Undefined OutOfBounds.
Proof.
  intros I Hl. pose proof (size_range b I) as Hr. unfold read.
  apply read_loop_short; [assumption | lia | destruct I; lia | lia].
Qed.

(** X11. [read] on an empty buffer, in any state and for any count and
    destination (one without any slot included), returns 0 and leaves
    the destination and the buffer as they were. *)
Theorem read_on_empty (b : CircularBuff) (dest : list T) (n : Z) :
  empty b = true -> read dest n b = Ok ((0, dest), b).
Proof. intros E. unfold read. now apply read_loop_empty. Qed.

(** X12. The buffer [CircularBuff(0)] builds: [put], and [write] of
    one item or more, are undefined (a store through a zero-length
    array); [get] answers [T()], [read] transfers nothing and [reset]
    changes nothing, each leaving the buffer as it was. *)
Theorem zero_capacity_behaviour :
  exists b,
    CircularBuff_ctor 0 = Ok b /\
    (forall item, put item b = Undefined OutOfBounds) /\
    (forall buff n, 0 < n -> write buff n b = Undefined OutOfBounds) /\
    get b = Ok (T_default, b) /\
    (forall dest n, read dest n b = Ok ((0, dest), b)) /\
    reset b = Ok (tt, b) /\
    size b = 0 /\ empty b = true /\ full b = false.
Proof.
  eexists. split; [reflexivity |].
  set (b := mkCircularBuff (map fresh (seq 0 (Z.to_nat 0))) 0 0 0 false).
  assert (Z0 : zero_capacity b) by (repeat split).
  split; [intros item; now apply put_zero_capacity |].
  split.
  { intros buff n Hn. unfold write.
    destruct (Z.to_nat n) as [| k] eqn:Ek; [lia |].
    cbn [write_loop]. unfold bind at 1, lift.
    destruct (arr_load buff 0) as [x | u] eqn:El.
    - unfold bind at 1. now rewrite (put_zero_capacity x b Z0).
    - unfold arr_load in El. destruct (in_range buff 0); [| congruence].
      destruct (buff !! Z.to_nat 0); congruence. }
  split; [apply get_empty_eq; now apply zero_capacity_empty |].
  split; [intros dest n; unfold read; apply read_loop_empty;
          now apply zero_capacity_empty |].
  repeat split.
Qed.

(** X15. Reading in two chunks loses and reorders nothing: a [read] of
    [n1] followed by a [read] of [n2] delivers, one chunk after the
    other, the elements a single [read] of [n1 + n2] delivers. *)
Theorem reads_in_two_chunks (b : CircularBuff) (d1 d2 : list T) (n1 n2 : Z) :
  Inv b -> 0 <= n1 -> 0 <= n2 ->
  Z.min n1 (size b) <= Z.of_nat (length d1) ->
  Z.min n2 (size b - Z.min n1 (size b)) <= Z.of_nat (length d2) ->
  let c1 := Z.min n1 (size b) in
  let c2 := Z.min n2 (size b - c1) in
  exists d1' d2' b1 b2,
    read d1 n1 b = Ok ((c1, d1'), b1) /\
    read d2 n2 b1 = Ok ((c2, d2'), b2) /\
    c1 + c2 = Z.min (n1 + n2) (size b) /\
    take (Z.to_nat c1) d1' ++ take (Z.to_nat c2) d2'
      = take (Z.to_nat (c1 + c2)) (contents b) /\
    contents b2 = drop (Z.to_nat (c1 + c2)) (contents b).
Proof.
  intros I H1 H2 Hd1 Hd2 c1 c2. pose proof (size_range b I) as Hr.
  assert (Hw : 0 + size b < SIZE_MODULUS) by (destruct I; lia).
  pose proof (read_loop_eq (Z.to_nat n1) 0 d1 b I (Z.le_refl 0) Hw) as R1.
  replace (Z.min (Z.of_nat (Z.to_nat n1)) (size b)) with c1 in R1 by (unfold c1; lia).
  specialize (R1 ltac:(unfold c1; lia)).
  destruct (after_gets_spec (Z.to_nat c1) b I) as (I1 & S1 & C1); [unfold c1; lia |].
  set (b1 := after_gets (Z.to_nat c1) b) in *.
  assert (S1' : size b1 = size b - c1) by (unfold c1 in *; lia).
  assert (Hw1 : 0 + size b1 < SIZE_MODULUS) by lia.
  pose proof (read_loop_eq (Z.to_nat n2) 0 d2 b1 I1 (Z.le_refl 0) Hw1) as R2.
  replace (Z.min (Z.of_nat (Z.to_nat n2)) (size b1)) with c2 in R2
    by (unfold c2; rewrite S1'; lia).
  specialize (R2 ltac:(unfold c2, c1 in *; lia)).
  destruct (after_gets_spec (Z.to_nat c2) b1 I1) as (_ & _ & C2);
    [unfold c2; rewrite S1'; lia |].
  assert (L1 : length (take (Z.to_nat c1) (contents b)) = Z.to_nat c1).
  { rewrite length_take, contents_length. unfold c1. lia. }
  assert (L2 : length (take (Z.to_nat c2) (contents b1)) = Z.to_nat c2).
  { rewrite length_take, contents_length, S1'. unfold c2. lia. }
  eexists _, _, _, _. split; [exact R1 |]. split; [exact R2 |].
  split; [unfold c2, c1; lia |].
  rewrite Z.add_0_l. change (Z.to_nat 0) with 0%nat. rewrite !take_0, !app_nil_l.
  rewrite (take_app_length' _ _ _ (eq_sym L1)), (take_app_length' _ _ _ (eq_sym L2)).
  replace (Z.to_nat (c1 + c2)) with (Z.to_nat c1 + Z.to_nat c2)%nat
    by (unfold c2, c1; lia).
  split.
  - rewrite C1. apply take_take_drop.
  - rewrite C2, C1. apply drop_drop.
Qed.

Lemma next_inj (b : CircularBuff) (h t : Z) :
  0 <= h < m_maxSize b -> 0 <= t < m_maxSize b ->
  next b h = next b t -> h = t.
Proof.
  intros Hh Ht. unfold next. rewrite !succ_mod by assumption.
  destruct (Z.eqb_spec (h + 1) (m_maxSize b));
    destruct (Z.eqb_spec (t + 1) (m_maxSize b)); lia.
Qed.

(** X17. On a buffer that is neither empty nor full ([head != tail]) a
    [put] and a [get] commute: in either order the [get] returns the same
    element -- the oldest, never the item just put -- and the buffer ends
    in the same state. *)
Theorem put_get_commute (b : CircularBuff) (item : T) :
  Inv b -> m_head b <> m_tail b ->
  exists v b',
    (put item ;; get) b = Ok (v, b') /\
    (v' <- get ;; put item ;; ret v') b = Ok (v, b') /\
    m_buf b !! Z.to_nat (m_tail b) = Some v.
Proof.
  intros I Hne.
  assert (F : m_full b = false).
  { destruct (m_full b) eqn:F; [| reflexivity]. destruct I. tauto. }
  assert (E : empty b = false) by (apply empty_false_iff; now right).
  destruct (get_eq b I E) as (v & Hv & Hg).
  pose proof (Inv_after_put item b I) as I1.
  pose proof (Inv_after_get b I) as I2.
  assert (E1 : empty (after_put item b) = false).
  { apply empty_false_iff. unfold after_put; simpl. rewrite F.
    destruct (Z.eqb_spec (next b (m_head b)) (m_tail b)); [now left | now right]. }
  destruct (get_eq _ I1 E1) as (v1 & Hv1 & Hg1).
  assert (Hvv : v1 = v).
  { unfold after_put in Hv1; simpl in Hv1. rewrite F in Hv1.
    rewrite list_lookup_insert_ne in Hv1 by (destruct I; lia). congruence. }
  subst v1.
  exists v, (after_get (after_put item b)).
  split; [unfold bind; now rewrite (put_eq item b I), Hg1 |].
  split; [| exact Hv].
  unfold bind. rewrite Hg, (put_eq item _ I2). unfold ret. do 2 f_equal.
  unfold after_get, after_put, next; simpl. rewrite F.
  replace ((m_head b + 1) mod m_maxSize b =? (m_tail b + 1) mod m_maxSize b) with false;
    [reflexivity |].
  symmetry. apply Z.eqb_neq. intros Heq. apply Hne.
  destruct I. now apply (next_inj b).
Qed.

(** X16. A [read] that asks for at least [size()] elements drains the
    buffer: it delivers the whole queue, oldest first, and the buffer is
    empty afterwards, with [head == tail]. *)
Theorem read_drains (b : CircularBuff) (dest : list T) (n : Z) :
  Inv b -> size b <= n -> size b <= Z.of_nat (length dest) ->
  exists b',
    read dest n b = Ok ((size b, contents b ++ drop (Z.to_nat (size b)) dest), b') /\
    empty b' = true /\ size b' = 0 /\ m_head b' = m_tail b'.
Proof.
  intros I Hn Hd. pose proof (size_range b I) as Hr.
  assert (Hw : 0 + size b < SIZE_MODULUS) by (destruct I; lia).
  pose proof (read_loop_eq (Z.to_nat n) 0 dest b I (Z.le_refl 0) Hw) as Hrd.
  replace (Z.min (Z.of_nat (Z.to_nat n)) (size b)) with (size b) in Hrd by lia.
  specialize (Hrd ltac:(lia)).
  destruct (after_gets_spec (Z.to_nat (size b)) b I) as (I' & Hs' & _); [lia |].
  assert (E : empty (after_gets (Z.to_nat (size b)) b) = true)
    by (apply (size_0_empty _ I'); lia).
  eexists. split.
  - unfold read. rewrite Hrd. do 2 f_equal.
    rewrite Z.add_0_l. change (Z.to_nat 0) with 0%nat. rewrite take_0, app_nil_l.
    now rewrite take_ge by (rewrite contents_length; lia).
  - split; [exact E |]. split; [lia |]. now apply empty_iff in E.
Qed.

(** X13. Whatever the state, a call of [put], [get], [reset], [write] or
    [read] that returns leaves [capacity()] and the number of slots of the
    backing store as they were. *)
Theorem capacity_is_constant (b : CircularBuff) :
  (forall item b', put item b = Ok (tt, b') ->
     capacity b' = capacity b /\ length (m_buf b') = length (m_buf b)) /\
  (forall v b', get b = Ok (v, b') ->
     capacity b' = capacity b /\ length (m_buf b') = length (m_buf b)) /\
  (forall b', reset b = Ok (tt, b') ->
     capacity b' = capacity b /\ length (m_buf b') = length (m_buf b)) /\
  (forall buff n b', write buff n b = Ok (tt, b') ->
     capacity b' = capacity b /\ length (m_buf b') = length (m_buf b)) /\
  (forall dest n r b', read dest n b = Ok (r, b') ->
     capacity b' = capacity b /\ length (m_buf b') = length (m_buf b)).
Proof.
  unfold capacity. split; [| split; [| split; [| split]]].
  - intros item b' H. apply put_frame in H. tauto.
  - intros v b' H. apply get_frame in H. destruct H as (-> & -> & _). auto.
  - intros b' H. rewrite reset_eq in H. injection H as <-. auto.
  - intros buff n b' H. now apply write_loop_frame in H.
  - intros dest n r b' H. apply read_loop_frame in H.
    destruct H as (-> & -> & _). auto.
Qed.

(** X14. The reading side never touches what the writing side owns, and
    conversely: in any state [get] and [read] leave the backing store and
    [head] as they were, and [put] on a buffer that is not full leaves
    [tail] as it was. *)
Theorem reader_and_writer_frames (b : CircularBuff) :
  (forall v b', get b = Ok (v, b') -> m_buf b' = m_buf b /\ m_head b' = m_head b) /\
  (forall dest n r b', read dest n b = Ok (r, b') ->
     m_buf b' = m_buf b /\ m_head b' = m_head b) /\
  (forall item b', full b = false -> put item b = Ok (tt, b') ->
     m_tail b' = m_tail b).
Proof.
  split; [| split].
  - intros v b' H. now apply get_frame in H.
  - intros dest n r b' H. now apply read_loop_frame in H.
  - intros item b' F H. apply put_frame in H. now apply H.
Qed.

End CircularBuff.

Arguments CircularBuff T : clear implicits.

Arguments M T A : clear implicits.

Notation "x <- c1 ;; c2" := (bind c1 (fun x => c2))
  (at level 100, c1 at next level, right associativity).

Notation "c1 ;; c2" := (bind c1 (fun _ => c2))
  (at level 100, right associativity).

(** ** Zero capacity *)

(** C1 (as the code has it). Construction makes no capacity check: with
    capacity 0 the constructor returns normally, and the buffer it returns
    has [capacity() == 0], both cursors at 0 and the full flag clear, so
    that [empty()] is true and [size()] is 0. *)
Theorem ctor_zero_capacity {T : Type} (fresh : nat -> T) :
  exists b : CircularBuff T,
    CircularBuff_ctor fresh 0 = Ok b /\
    capacity b = 0 /\ m_head b = 0 /\ m_tail b = 0 /\ full b = false /\
    empty b = true /\ size b = 0.
Proof. eexists. split; [reflexivity |]. repeat split. Qed.

(** C1, counterexample: the constructor does not reject capacity 0. *)
Lemma ctor_zero_not_rejected :
  CircularBuff_ctor (fun _ : nat => 0) 0 = Ok (mkCircularBuff [] 0 0 0 false)
  /\ is_ok (CircularBuff_ctor (fun _ : nat => 0) 0) = true.
Proof. split; reflexivity. Qed.

(** What follows on such a buffer: the first [put] stores through
    [m_buf[0]] of a zero-length array. *)
Lemma put_after_ctor_zero {T : Type} (fresh : nat -> T) (item : T) (b : CircularBuff T) :
  CircularBuff_ctor fresh 0 = Ok b -> put item b = Undefined OutOfBounds.
Proof. intros H. injection H as <-. reflexivity. Qed.

(** ** Overwrite on full *)

(** C2. A capacity-5 buffer filled with 1,2,3,4,5 and then given
    [put(6)] is full with [size() == 5], and five [get()] calls return
    2,3,4,5,6 in this order.  In general [put] on a full buffer moves
    [tail] one slot on (mod capacity), stores the item at [head] and moves
    [head] one slot on (mod capacity); the buffer stays full and its queue
    loses its oldest element and gains the item at the end. *)
Theorem put_on_full_discards_oldest :
  (forall (fresh : nat -> Z) (d : Z),
     exists b0 b5 b6 b11 : CircularBuff Z,
       CircularBuff_ctor fresh 5 = Ok b0 /\
       (put 1 ;; put 2 ;; put 3 ;; put 4 ;; put 5) b0 = Ok (tt, b5) /\
       full b5 = true /\
       put 6 b5 = Ok (tt, b6) /\
       full b6 = true /\ size b6 = 5 /\
       (v1 <- get d ;; v2 <- get d ;; v3 <- get d ;; v4 <- get d ;; v5 <- get d ;;
        ret [v1; v2; v3; v4; v5]) b6 = Ok ([2; 3; 4; 5; 6], b11) /\
       empty b11 = true)
  /\
  (forall (T : Type) (d : T) (b : CircularBuff T) (item : T),
     Inv b -> full b = true ->
     exists b',
       put item b = Ok (tt, b') /\
       m_tail b' = (m_tail b + 1) mod capacity b /\
       m_buf b' = <[Z.to_nat (m_head b) := item]> (m_buf b) /\
       m_head b' = (m_head b + 1) mod capacity b /\
       capacity b' = capacity b /\
       full b' = true /\ size b' = capacity b /\
       contents d b' = drop 1 (contents d b) ++ [item]).
Proof.
  split.
  - intros fresh d. eexists _, _, _, _.
    split; [reflexivity |].
    split; [vm_compute; reflexivity |].
    split; [reflexivity |].
    split; [vm_compute; reflexivity |].
    split; [reflexivity |].
    split; [reflexivity |].
    split; [vm_compute; reflexivity | reflexivity].
  - intros T d b item I F. eexists.
    split; [now apply put_full_eq |].
    split; [reflexivity |].
    split; [reflexivity |].
    split; [reflexivity |].
    split; [reflexivity |].
    split; [reflexivity |].
    split; [reflexivity |].
    unfold full in F. rewrite <- (contents_put_full d item b I F).
    unfold after_put, next, capacity. rewrite F.
    destruct I as [Hc Hb Hh Ht Hf]. rewrite (Hf F), Z.eqb_refl. reflexivity.
Qed.

(** * Instances *)

Ltac solve_Inv :=
  constructor; cbn; unfold SIZE_MODULUS;
  first [lia | intros; discriminate | intros; reflexivity].

Lemma put_on_full_discards_oldest_witness :
  let b := mkCircularBuff [10; 20; 30] 2 2 3 true in
  Inv b /\ full b = true /\
  exists b',
    put 40 b = Ok (tt, b') /\
    m_tail b' = (m_tail b + 1) mod capacity b /\
    m_buf b' = <[Z.to_nat (m_head b) := 40]> (m_buf b) /\
    m_head b' = (m_head b + 1) mod capacity b /\
    capacity b' = capacity b /\
    full b' = true /\ size b' = capacity b /\
    contents 0 b' = drop 1 (contents 0 b) ++ [40].
Proof.
  intros b. assert (I : Inv b) by solve_Inv.
  split; [exact I |]. split; [reflexivity |].
  exact (proj2 put_on_full_discards_oldest Z 0 b 40 I eq_refl).
Defined.

Lemma put_get_on_empty_witness :
  let b := mkCircularBuff [7; 8; 9] 1 1 3 false in
  Inv b /\ empty b = true /\
  exists b', (put 5 ;; get 0) b = Ok (5, b') /\ empty b' = true.
Proof.
  intros b. assert (I : Inv b) by solve_Inv.
  split; [exact I |]. split; [reflexivity |].
  exact (put_get_on_empty 0 b 5 I eq_refl).
Defined.

Lemma size_is_modular_distance_witness :
  let b := mkCircularBuff [5; 0; 0] 1 0 3 false in
  reachable 0 (fun _ => 0) b /\ 0 < capacity b /\
  size b = (if full b then capacity b else (m_head b - m_tail b) mod capacity b) /\
  (if m_head b >=? m_tail b then wrap (m_head b - m_tail b)
   else wrap (wrap (capacity b + m_head b) - m_tail b))
  = (m_head b - m_tail b) mod capacity b.
Proof.
  intros b.
  assert (R : reachable 0 (fun _ => 0) b).
  { apply (reach_put 0 (fun _ => 0) (mkCircularBuff [0; 0; 0] 0 0 3 false) b 5).
    - apply (reach_ctor 0 (fun _ => 0) 3); [unfold SIZE_MODULUS; lia | reflexivity].
    - vm_compute. reflexivity. }
  assert (C : 0 < capacity b) by (cbn; lia).
  split; [exact R |]. split; [exact C |].
  exact (size_is_modular_distance 0 (fun _ => 0) b R C).
Defined.

Lemma get_on_empty_witness :
  let b := mkCircularBuff [7; 8; 9] 1 1 3 false in
  empty b = true /\ get 0 b = Ok (0, b).
Proof.
  intros b. split; [reflexivity |].
  destruct (get_on_empty 0 b eq_refl) as (v & b' & Hg & -> & _ & _ & _ & _ & ->).
  exact Hg.
Defined.

Lemma read_transfers_min_witness :
  let b := mkCircularBuff [10; 20; 30] 2 0 3 false in
  let dest := [0; 0; 0; 0] in
  Inv b /\ 0 <= 3 /\ Z.min 3 (size b) <= Z.of_nat (length dest) /\
  exists dest' b',
    read 0 dest 3 b = Ok ((2, dest'), b') /\
    dest' = [10; 20; 0; 0] /\ empty b' = true.
Proof.
  intros b dest. assert (I : Inv b) by solve_Inv.
  assert (H3 : 0 <= 3) by lia.
  assert (Hd : Z.min 3 (size b) <= Z.of_nat (length dest))
    by (vm_compute; discriminate).
  split; [exact I |]. split; [exact H3 |]. split; [exact Hd |].
  destruct (read_transfers_min 0 b dest 3 I H3 Hd) as (dest' & b' & Hr & _).
  exists dest', b'. split; [exact Hr |].
  vm_compute in Hr. injection Hr as <- <-. split; reflexivity.
Defined.

Lemma operations_preserve_Inv_witness :
  let b := mkCircularBuff [10; 20; 30] 2 2 3 true in
  Inv b /\
  (0 <= m_head b < capacity b /\ 0 <= m_tail b < capacity b) /\
  (exists b', put 40 b = Ok (tt, b') /\ Inv b') /\
  (exists v b', get 0 b = Ok (v, b') /\ Inv b') /\
  (exists b', write [40; 50] 2 b = Ok (tt, b') /\ Inv b') /\
  (exists r b', read 0 [0; 0] 2 b = Ok (r, b') /\ Inv b') /\
  (exists b', reset b = Ok (tt, b') /\ Inv b').
Proof.
  intros b. assert (I : Inv b) by solve_Inv.
  destruct (operations_preserve_Inv 0 b I)
    as (Hb & _ & Hput & Hget & Hwrite & Hread & Hreset & _).
  split; [exact I |]. split; [exact Hb |].
  split; [exact (Hput 40) |]. split; [exact Hget |].
  split; [apply Hwrite; [cbn; lia | unfold SIZE_MODULUS; lia] |].
  split; [apply Hread; [lia | vm_compute; discriminate] | exact Hreset].
Defined.

Lemma put_makes_nonempty_witness :
  let b := mkCircularBuff [7; 8; 9] 1 1 3 false in
  Inv b /\
  exists b', put 5 b = Ok (tt, b') /\ empty b' = false /\ 1 <= size b'.
Proof.
  intros b. assert (I : Inv b) by solve_Inv.
  split; [exact I |]. exact (put_makes_nonempty b 5 I).
Defined.

Lemma get_clears_full_witness :
  let b := mkCircularBuff [10; 20; 30] 2 2 3 true in
  Inv b /\ empty b = false /\
  exists v b', get 0 b = Ok (v, b') /\ full b' = false.
Proof.
  intros b. assert (I : Inv b) by solve_Inv.
  split; [exact I |]. split; [reflexivity |].
  exact (get_clears_full 0 b I eq_refl).
Defined.

Lemma reset_empties_witness :
  let b := mkCircularBuff [10; 20; 30] 2 2 3 true in
  Inv b /\
  exists b',
    reset b = Ok (tt, b') /\ empty b' = true /\ size b' = 0 /\
    get 0 b' = Ok (0, b') /\
    exists b'', (puts [1; 2; 3; 4] ;; gets 0 3) b' = Ok ([2; 3; 4], b'').
Proof.
  intros b. assert (I : Inv b) by solve_Inv.
  split; [exact I |].
  destruct (reset_empties 0 b) as (b' & Hr & He & Hs & _ & _ & Hg & _ & _ & Hp).
  exists b'. split; [exact Hr |]. split; [exact He |]. split; [exact Hs |].
  split; [exact Hg |].
  apply (Hp I [1; 2; 3; 4] 3%nat); [cbn; lia | cbn; lia].
Defined.

(** The runs listed as testable properties, evaluated on the embedding. *)

Example construct_5 (fresh : nat -> Z) :
  exists b,
    CircularBuff_ctor fresh 5 = Ok b /\
    empty b = true /\ full b = false /\ size b = 0 /\ capacity b = 5.
Proof. eexists. repeat split. Qed.

Example default_capacity (fresh : nat -> Z) :
  exists b, CircularBuff_default_ctor fresh = Ok b /\ capacity b = 4096.
Proof. eexists. split; reflexivity. Qed.

Example write_10_read_5 (fresh : nat -> Z) :
  exists b0 b1,
    CircularBuff_ctor fresh 5 = Ok b0 /\
    (write [1; 2; 3; 4; 5; 6; 7; 8; 9; 10] 10 ;; read 0 [0; 0; 0; 0; 0] 5) b0
      = Ok ((5, [6; 7; 8; 9; 10]), b1).
Proof. eexists _, _. split; [reflexivity | vm_compute; reflexivity]. Qed.

Example read_more_than_held (fresh : nat -> Z) :
  exists b0 b1,
    CircularBuff_ctor fresh 5 = Ok b0 /\
    (put 1 ;; put 2 ;; read 0 [0; 0; 0; 0] 4) b0 = Ok ((2, [1; 2; 0; 0]), b1).
Proof. eexists _, _. split; [reflexivity | vm_compute; reflexivity]. Qed.

(** * Instances of the further properties *)

Ltac by_eval := vm_compute; repeat split; first [reflexivity | discriminate].


Lemma size_within_capacity_witness :
  let b := mkCircularBuff [5; 0; 0] 1 0 3 false in
  reachable 0 (fun _ => 0) b /\
  0 <= size b <= capacity b /\
  (empty b = true <-> size b = 0) /\
  (0 < capacity b -> (full b = true <-> size b = capacity b)).
Proof.
  intros b.
  assert (R : reachable 0 (fun _ => 0) b).
  { apply (reach_put 0 (fun _ => 0) (mkCircularBuff [0; 0; 0] 0 0 3 false) b 5).
    - apply (reach_ctor 0 (fun _ => 0) 3); [by_eval | reflexivity].
    - vm_compute. reflexivity. }
  split; [exact R |].
  exact (size_within_capacity 0 (fun _ => 0) b R).
Defined.

Lemma put_grows_size_witness :
  let b := mkCircularBuff [10; 20; 30] 2 0 3 false in
  Inv b /\
  exists b',
    put 40 b = Ok (tt, b') /\
    size b' = Z.min (size b + 1) (capacity b) /\
    (full b' = true <-> capacity b - 1 <= size b).
Proof.
  intros b. assert (I : Inv b) by solve_Inv.
  split; [exact I |]. exact (put_grows_size b 40 I).
Defined.

Lemma get_takes_oldest_witness :
  let b := mkCircularBuff [10; 20; 30] 2 2 3 true in
  Inv b /\ empty b = false /\
  exists v b',
    get 0 b = Ok (v, b') /\
    m_buf b !! Z.to_nat (m_tail b) = Some v /\
    contents 0 b = v :: contents 0 b' /\
    size b' = size b - 1 /\
    m_tail b' = (m_tail b + 1) mod capacity b.
Proof.
  intros b. assert (I : Inv b) by solve_Inv.
  split; [exact I |]. split; [reflexivity |].
  exact (get_takes_oldest 0 b I eq_refl).
Defined.

Lemma put_with_room_appends_witness :
  let b := mkCircularBuff [10; 20; 30] 2 0 3 false in
  Inv b /\ full b = false /\
  exists b',
    put 40 b = Ok (tt, b') /\
    contents 0 b' = contents 0 b ++ [40] /\
    size b' = size b + 1.
Proof.
  intros b. assert (I : Inv b) by solve_Inv.
  split; [exact I |]. split; [reflexivity |].
  exact (put_with_room_appends 0 b 40 I eq_refl).
Defined.

Lemma write_read_round_trip_witness :
  let b := mkCircularBuff [10; 20; 30] 2 0 3 false in
  let buff := [1; 2] in
  let dest := [0; 0; 0; 0] in
  Inv b /\ 0 <= 1 <= Z.of_nat (length buff) /\
  size b + 1 <= capacity b /\ size b + 1 <= Z.of_nat (length dest) /\
  exists b',
    (write buff 1 ;; read 0 dest (size b + 1)) b =
      Ok ((size b + 1,
           contents 0 b ++ take (Z.to_nat 1) buff ++ drop (Z.to_nat (size b + 1)) dest), b') /\
    empty b' = true.
Proof.
  intros b buff dest. assert (I : Inv b) by solve_Inv.
  assert (H1 : 0 <= 1 <= Z.of_nat (length buff)) by by_eval.
  assert (H2 : size b + 1 <= capacity b) by by_eval.
  assert (H3 : size b + 1 <= Z.of_nat (length dest)) by by_eval.
  split; [exact I |]. split; [exact H1 |]. split; [exact H2 |]. split; [exact H3 |].
  exact (write_read_round_trip 0 b buff dest 1 I H1 H2 H3).
Defined.

Lemma write_is_puts_witness :
  let b := mkCircularBuff [10; 20; 30] 2 0 3 false in
  0 <= 2 <= Z.of_nat (length [1; 2; 3]) /\ 2 < SIZE_MODULUS /\
  write [1; 2; 3] 2 b = puts [1; 2] b.
Proof.
  intros b.
  assert (H1 : 0 <= 2 <= Z.of_nat (length [1; 2; 3])) by by_eval.
  assert (H2 : 2 < SIZE_MODULUS) by by_eval.
  split; [exact H1 |]. split; [exact H2 |].
  exact (write_is_puts [1; 2; 3] 2 b H1 H2).
Defined.

Lemma write_keeps_newest_witness :
  let b := mkCircularBuff [10; 20; 30] 2 2 3 true in
  let buff := [1; 2; 3; 4] in
  Inv b /\ 0 <= 4 <= Z.of_nat (length buff) /\ 4 < SIZE_MODULUS /\
  exists b',
    write buff 4 b = Ok (tt, b') /\ full b' = true /\ contents 0 b' = [2; 3; 4].
Proof.
  intros b buff. assert (I : Inv b) by solve_Inv.
  assert (H1 : 0 <= 4 <= Z.of_nat (length buff)) by by_eval.
  assert (H2 : 4 < SIZE_MODULUS) by by_eval.
  split; [exact I |]. split; [exact H1 |]. split; [exact H2 |].
  destruct (write_keeps_newest 0 b buff 4 I H1 H2) as (b' & Hw & _ & _ & Hc).
  destruct Hc as [Hf Hq]; [by_eval |].
  exists b'. split; [exact Hw |]. split; [exact Hf | exact Hq].
Defined.

Lemma write_past_array_witness :
  let b := mkCircularBuff [10; 20; 30] 2 0 3 false in
  Inv b /\ Z.of_nat (length [1]) < 2 /\ 2 < SIZE_MODULUS /\
  write [1] 2 b = Undefined OutOfBounds.
Proof.
  intros b. assert (I : Inv b) by solve_Inv.
  assert (H1 : Z.of_nat (length [1]) < 2) by by_eval.
  assert (H2 : 2 < SIZE_MODULUS) by by_eval.
  split; [exact I |]. split; [exact H1 |]. split; [exact H2 |].
  exact (write_past_array b [1] 2 I H1 H2).
Defined.

Lemma read_past_destination_witness :
  let b := mkCircularBuff [10; 20; 30] 2 0 3 false in
  Inv b /\ Z.of_nat (length [0]) < Z.min 2 (size b) /\
  read 0 [0] 2 b = Undefined OutOfBounds.
Proof.
  intros b. assert (I : Inv b) by solve_Inv.
  assert (H1 : Z.of_nat (length [0]) < Z.min 2 (size b)) by by_eval.
  split; [exact I |]. split; [exact H1 |].
  exact (read_past_destination 0 b [0] 2 I H1).
Defined.

Lemma read_on_empty_witness :
  let b := mkCircularBuff [7; 8; 9] 1 1 3 false in
  empty b = true /\ read 0 [] 5 b = Ok ((0, []), b).
Proof.
  intros b. split; [reflexivity |].
  exact (read_on_empty 0 b [] 5 eq_refl).
Defined.

Lemma reads_in_two_chunks_witness :
  let b := mkCircularBuff [10; 20; 30] 2 2 3 true in
  Inv b /\ 0 <= 2 /\
  Z.min 2 (size b) <= Z.of_nat (length [0; 0]) /\
  Z.min 2 (size b - Z.min 2 (size b)) <= Z.of_nat (length [0; 0]) /\
  exists d1' d2' b1 b2,
    read 0 [0; 0] 2 b = Ok ((2, d1'), b1) /\
    read 0 [0; 0] 2 b1 = Ok ((1, d2'), b2) /\
    take 2 d1' ++ take 1 d2' = [30; 10; 20] /\
    contents 0 b2 = [].
Proof.
  intros b. assert (I : Inv b) by solve_Inv.
  assert (H0 : 0 <= 2) by by_eval.
  assert (H1 : Z.min 2 (size b) <= Z.of_nat (length [0; 0])) by by_eval.
  assert (H2 : Z.min 2 (size b - Z.min 2 (size b)) <= Z.of_nat (length [0; 0]))
    by by_eval.
  split; [exact I |]. split; [exact H0 |]. split; [exact H1 |]. split; [exact H2 |].
  destruct (reads_in_two_chunks 0 b [0; 0] [0; 0] 2 2 I H0 H0 H1 H2)
    as (d1' & d2' & b1 & b2 & R1 & R2 & _ & Hq & Hc).
  exists d1', d2', b1, b2.
  split; [exact R1 |]. split; [exact R2 |]. split; [exact Hq | exact Hc].
Defined.

Lemma read_drains_witness :
  let b := mkCircularBuff [10; 20; 30] 2 2 3 true in
  let dest := [0; 0; 0; 0] in
  Inv b /\ size b <= 10 /\ size b <= Z.of_nat (length dest) /\
  exists b',
    read 0 dest 10 b = Ok ((3, [30; 10; 20; 0]), b') /\
    empty b' = true /\ size b' = 0 /\ m_head b' = m_tail b'.
Proof.
  intros b dest. assert (I : Inv b) by solve_Inv.
  assert (H1 : size b <= 10) by by_eval.
  assert (H2 : size b <= Z.of_nat (length dest)) by by_eval.
  split; [exact I |]. split; [exact H1 |]. split; [exact H2 |].
  exact (read_drains 0 b dest 10 I H1 H2).
Defined.

Lemma put_get_commute_witness :
  let b := mkCircularBuff [10; 20; 30] 2 0 3 false in
  Inv b /\ m_head b <> m_tail b /\
  exists v b',
    (put 40 ;; get 0) b = Ok (v, b') /\
    (v' <- get 0 ;; put 40 ;; ret v') b = Ok (v, b') /\
    m_buf b !! Z.to_nat (m_tail b) = Some v.
Proof.
  intros b. assert (I : Inv b) by solve_Inv.
  assert (H : m_head b <> m_tail b) by (cbn; lia).
  split; [exact I |]. split; [exact H |].
  exact (put_get_commute 0 b 40 I H).
Defined.
